(** * Rate estimation from biased trajectories: iMetaD, KTR and EATR

    A shallow embedding of [rate_methods.py].  NumPy arrays of floats are
    lists of real numbers (finite floating-point values are idealised as
    reals, so every equation below is one of exact real arithmetic);
    boolean arrays are lists of [bool]; a Python exception is a [Raise];
    an array that the Python code updates in place is returned together
    with the value of the call. *)

From Stdlib Require Import Reals Lra Lia List ZArith Bool String.
From Stdlib Require Import Permutation Sorted.
From Stdlib Require Import ClassicalEpsilon.
Import ListNotations.
Open Scope R_scope.

(** ** Exceptions and results *)

Inductive exn : Type :=
| ValueError
| IndexError
| NameError.

Inductive result (A : Type) : Type :=
| Ok (a : A)
| Raise (e : exn).

Arguments Ok {A} a.
Arguments Raise {A} e.

Definition bind {A B : Type} (r : result A) (k : A -> result B) : result B :=
  match r with
  | Ok a => k a
  | Raise e => Raise e
  end.

Notation "x <- r ;; k" := (bind r (fun x => k))
  (at level 61, r at next level, right associativity).

(** ** The NumPy operations the estimators use *)

Module Np.

(** [a.sum()] for a float array. *)
Definition sum (a : list R) : R := fold_right Rplus 0 a.

(** [event.sum()] for a boolean array: the number of [True] entries. *)
Definition count (event : list bool) : nat :=
  List.length (filter (fun b => b) event).

(** Selection by a boolean mask on equally long lists. *)
Fixpoint select (a : list R) (m : list bool) : list R :=
  match a, m with
  | x :: a', b :: m' => if b then x :: select a' m' else select a' m'
  | _, _ => []
  end.

(** [a[event]]: boolean-mask indexing; NumPy raises [IndexError] when the
    mask and the array differ in length. *)
Definition mask (a : list R) (m : list bool) : result (list R) :=
  if Nat.eqb (List.length a) (List.length m) then Ok (select a m)
  else Raise IndexError.

(** Element-wise binary operation on equally long lists. *)
Fixpoint zip_with (f : R -> R -> R) (a b : list R) : list R :=
  match a, b with
  | x :: a', y :: b' => f x y :: zip_with f a' b'
  | _, _ => []
  end.

(** Binary ufunc on two one-dimensional arrays, with NumPy broadcasting:
    equal lengths, or one of the operands has length one. *)
Definition broadcast (f : R -> R -> R) (a b : list R) : result (list R) :=
  if Nat.eqb (List.length a) (List.length b) then Ok (zip_with f a b)
  else match a, b with
       | _, [y] => Ok (map (fun x => f x y) a)
       | [x], _ => Ok (map (fun y => f x y) b)
       | _, _ => Raise ValueError
       end.

(** In-place ufunc [a op= b]: the result must have the shape of [a], so
    [b] has the length of [a] or length one. *)
Definition inplace (f : R -> R -> R) (a b : list R) : result (list R) :=
  if Nat.eqb (List.length a) (List.length b) then Ok (zip_with f a b)
  else match b with
       | [y] => Ok (map (fun x => f x y) a)
       | _ => Raise ValueError
       end.

(** A float that may be minus infinity: the value of [np.log] at zero. *)
Inductive ext : Type :=
| Fin (x : R)
| NegInf.

(** [np.log] on a non-negative argument: [log(0)] is [-inf]. *)
Definition log (x : R) : ext :=
  if Req_dec_T x 0 then NegInf else Fin (ln x).

(** [c + e] for a finite [c]: [c + (-inf)] is [-inf]. *)
Definition shift (c : R) (e : ext) : ext :=
  match e with
  | Fin x => Fin (c + x)
  | NegInf => NegInf
  end.

(** [np.exp] with [exp(-inf) = 0]. *)
Definition exp_ext (e : ext) : R :=
  match e with
  | Fin x => exp x
  | NegInf => 0
  end.

(** [np.arange(start, stop, step)]: the values [start + i*step] for
    [0 <= i < ceil((stop - start)/step)]. *)
Definition arange (start stop step : R) : list R :=
  map (fun i => start + INR i * step)
      (seq 0 (Z.to_nat (Zceil ((stop - start) / step)))).




(** An entry of an array that may hold no number: [None] stands for NaN,
    for a masked entry, and for Python's [None] in an object array. *)
Definition cell : Type := option R.

(** A two-dimensional float array of shape [(length rows, ncols)]. *)
Record matrix : Type := {
  ncols : nat;
  rows : list (list cell)
}.

(** [a[i]] on a Python list. *)
Definition item {A : Type} (a : list A) (i : nat) : result A :=
  match nth_error a i with
  | Some x => Ok x
  | None => Raise IndexError
  end.

(** [a[:, k]] on a two-dimensional array given by its rows. *)
Fixpoint column (k : nat) (a : list (list R)) : result (list R) :=
  match a with
  | [] => Ok []
  | row :: a' =>
      x <- item row k ;;
      c <- column k a' ;;
      Ok (x :: c)
  end.

(** [np.hstack((col, fill))] with [fill] holding [n - len(col)] NaNs when
    that number is positive. *)
Definition pad_nan (n : nat) (col : list R) : list cell :=
  map Some col ++ repeat None (n - List.length col).

(** [a[i, :] = row] for a row of an array with [n] columns: the value is
    broadcast to shape [(n,)]. *)
Definition assign_row (n : nat) (row : list cell) : result (list cell) :=
  if Nat.eqb (List.length row) n then Ok row
  else match row with
       | [x] => Ok (repeat x n)
       | _ => Raise ValueError
       end.

(** The unmasked entries of column [j]. *)
Definition unmasked (j : nat) (rows : list (list cell)) : list R :=
  flat_map (fun row => match nth j row None with
                       | Some v => [v]
                       | None => []
                       end) rows.

(** Mean of the unmasked entries; masked when there is none. *)
Definition masked_mean (vals : list R) : cell :=
  match vals with
  | [] => None
  | _ => Some (sum vals / INR (List.length vals))
  end.

(** [np.ma.average(np.ma.masked_array(a, np.isnan(a)).T, axis=1)]: for
    every column of [a] the mean of its entries that are not NaN. *)
Definition ma_average (n : nat) (rows : list (list cell)) : list cell :=
  map (fun j => masked_mean (unmasked j rows)) (seq 0 n).

(** [np.vstack((ix_col, avg)).T] for a one-dimensional [avg]: the rows
    [(ix_col[j], avg[j])].  [ix_col = None] becomes a 1x1 object array, and
    stacking raises unless [avg] has exactly one entry. *)
Definition vstack_T (ix_col : option (list R)) (avg : list cell)
    : result (list (cell * cell)) :=
  match ix_col with
  | Some ix =>
      if Nat.eqb (List.length ix) (List.length avg)
      then Ok (combine (map Some ix) avg)
      else Raise ValueError
  | None =>
      if Nat.eqb (List.length avg) 1
      then Ok (combine [None] avg)
      else Raise ValueError
  end.

End Np.

(** [multiprocessing.Pool(processes).map(func, iterable)]: the results in
    input order; [Pool] raises [ValueError] for fewer than one process. *)
Module Mp.

Definition pool_map (processes : Z) (func : R -> R) (iterable : list R)
    : result (list R) :=
  if (processes <? 1)%Z then Raise ValueError else Ok (map func iterable).

End Mp.

(** [scipy.integrate.quad(f, a, b)[0]], idealised as the exact Riemann
    integral of [f] over [[a, b]] (zero when [f] is not integrable). *)
Definition quad (f : R -> R) (a b : R) : R :=
  match excluded_middle_informative (inhabited (Riemann_integrable f a b)) with
  | left H => RiemannInt (epsilon H (fun _ => True))
  | right _ => 0
  end.

(** ** Infrequent metadynamics: inverse mean residence time *)

Definition msg_need_acc : string :=
  "You need to provide the acceleration factors if rescale is True. If your times are already rescaled, set rescale to False.".

Definition msg_acc_unused : string :=
  "Not using the provided acceleration factors. If you want to rescale the times, set rescale to True.".

(** What a call of [iMetaD_invMRT] leaves behind: the returned value
    ([None] is Python's [None]), the content of the caller's [times] array
    after the call, and the lines printed. *)
Record invMRT_outcome : Type := {
  returned : option R;
  times_after : list R;
  printed : list string
}.

(** [iMetaD_invMRT(times, event, rescale=False, acc=None)].  The statement
    [times *= acc] is NumPy's in-place multiplication: it writes into the
    array object the caller passed. *)
Definition iMetaD_invMRT (times : list R) (event : list bool)
    (rescale : bool) (acc : option (list R)) : result invMRT_outcome :=
  match rescale, acc with
  | true, Some a =>
      times' <- Np.inplace Rmult times a ;;
      sel <- Np.mask times' event ;;
      Ok {| returned := Some (INR (Np.count event) / Np.sum sel);
            times_after := times';
            printed := [] |}
  | true, None =>
      Ok {| returned := None; times_after := times; printed := [msg_need_acc] |}
  | false, Some _ =>
      sel <- Np.mask times event ;;
      Ok {| returned := Some (INR (Np.count event) / Np.sum sel);
            times_after := times;
            printed := [msg_acc_unused] |}
  | false, None =>
      sel <- Np.mask times event ;;
      Ok {| returned := Some (INR (Np.count event) / Np.sum sel);
            times_after := times;
            printed := [] |}
  end.

(** ** Hazard model core *)

(** Negating splines to maximize them with SciPy minimize. *)
Definition neg_spline (x : R) (spline : R -> R) : R := -1 * spline x.

(** ** The SciPy routines, as an interface

    The optimisers, the spline constructor and the Kolmogorov-Smirnov tests
    are library code; the estimators are written against this interface.
    A routine that can fail returns a [result]. *)
Class Scipy : Type := {
  (** [optimize.minimize_scalar(fun).x], unbounded. *)
  minimize_scalar : (R -> R) -> R;
  (** [optimize.minimize_scalar(fun, bounds=bounds, method='bounded').x]. *)
  minimize_scalar_bounded : (R -> result R) -> R * R -> result R;
  (** [optimize.curve_fit(f, xdata, ydata, p0=p0)[0][0]], one parameter. *)
  curve_fit_k :
    (list R -> R -> list R) -> list R -> list R -> R -> result R;
  (** [optimize.curve_fit(f, xdata, ydata, p0=p0, bounds=(lower, upper),
      max_nfev=n)[0]], two parameters; an infinite bound is [None]. *)
  curve_fit_kg :
    (list R -> R -> R -> result (list R)) -> list R -> list R -> R * R ->
    (option R * R) * (option R * R) -> Z -> result (R * R);
  (** [optimize.minimize(fun, x0, options={"maxiter": n}).x]. *)
  minimize : (R * R -> result R) -> R * R -> Z -> result (R * R);
  (** [interpolate.UnivariateSpline(x, y, s=0, ext=3)]. *)
  UnivariateSpline : list Np.cell -> list Np.cell -> result (R -> R);
  (** The p-value of [stats.ks_1samp(x, cdf)]. *)
  ks_1samp : list R -> (list R -> result (list R)) -> R;
  (** The p-value of [stats.ks_2samp(x, y)]. *)
  ks_2samp : list R -> list R -> R;
  (** [stats.gamma.rvs(1, scale=scale, size=size)]: the sample of the
      [n]-th draw from the random generator. *)
  gamma_rvs : nat -> R -> Z -> list R
}.

Section HazardModel.

Context {scipy : Scipy}.

(** *** Kramers' time-dependent rate (KTR) *)

Definition KTR_calculate_cum_hazard (gamma : R) (spline : R -> R)
    (logTrick : bool) (t : R) : R :=
  let dt := 1 in
  if logTrick then
    let max_spline := minimize_scalar (fun x => neg_spline x spline) in
    let t_points := Np.arange 0 t dt in
    0.5 * dt *
      (1 + exp (gamma * spline t)
       + 2 * Np.exp_ext
               (Np.shift (gamma * max_spline)
                  (Np.log
                     (Np.sum
                        (map (fun x => exp (gamma * spline x - gamma * max_spline))
                             (tl t_points))))))
  else
    let int_Veff := quad (fun x => exp (gamma * spline x)) 0 t in
    int_Veff.

Definition KTR_calculate_log_hazard (gamma : R) (t : list R) (spline : R -> R)
    : list R :=
  let Veff := map spline t in
  map (fun v => gamma * v) Veff.

Definition KTR_calculate_log_l (gamma : R) (event : list bool) (t : list R)
    (spline : R -> R) (cores : Z) (logTrick : bool) (reg_lambda : R)
    : result R :=
  cum_hazard <- Mp.pool_map cores (KTR_calculate_cum_hazard gamma spline logTrick) t ;;
  let log_hazard := KTR_calculate_log_hazard gamma t spline in
  let mean_t := Np.sum cum_hazard / INR (Np.count event) in
  log_hazard_event <- Np.mask log_hazard event ;;
  let log_l := - INR (Np.count event) * ln mean_t + Np.sum log_hazard_event
               - (1 / mean_t) * Np.sum cum_hazard in
  let gdiff := 0.5 - gamma in
  Ok (- log_l + reg_lambda * gdiff * gdiff).

(** [KTR_CDF] builds its pool with the literal [mp.Pool(4)]; [cores] is
    accepted and not used. *)
Definition KTR_CDF (t : list R) (k0 gamma : R) (spline : R -> R) (cores : Z)
    (logTrick : bool) : result (list R) :=
  cum_hazard <- Mp.pool_map 4 (KTR_calculate_cum_hazard gamma spline logTrick) t ;;
  Ok (map (fun h => 1 - exp (- k0 * h)) cum_hazard).

(** [np.square(ecdfy - f).sum()]. *)
Definition sum_sq_residuals (ecdfy f : list R) : result R :=
  d <- Np.broadcast Rminus ecdfy f ;;
  Ok (Np.sum (map (fun x => x * x) d)).

(** [params] is the pair [(params[0], params[1])]. *)
Definition KTR_leastsq_cost (params : R * R) (t ecdfy : list R)
    (spline : R -> R) (cores : Z) (logTrick : bool) (reg_lambda kIMD : R)
    : result R :=
  f <- KTR_CDF t (fst params) (snd params) spline 4 false ;;
  sse <- sum_sq_residuals ecdfy f ;;
  let gdiff := 0.5 - snd params in
  let kdiff := 10 * kIMD - fst params in
  Ok (sse + reg_lambda * (kdiff * kdiff + gdiff * gdiff)).

(** *** Ensemble-averaged time-dependent rate (EATR) *)

Definition EATR_calculate_cum_hazard (gamma : R) (spline : R -> R)
    (logTrick : bool) (t : R) : R :=
  let dt := 1 in
  if logTrick then
    let max_spline := minimize_scalar (fun x => neg_spline x spline) in
    let t_points := Np.arange 0 t dt in
    0.5 * dt *
      (1 + exp (spline t)
       + 2 * Np.exp_ext
               (Np.shift max_spline
                  (Np.log
                     (Np.sum
                        (map (fun x => exp (spline x - max_spline))
                             (tl t_points))))))
  else
    let int_Veff := quad (fun x => exp (spline x)) 0 t in
    int_Veff.

Definition EATR_calculate_log_hazard (gamma : R) (t : list R) (spline : R -> R)
    : list R :=
  let Veff := map spline t in
  Veff.

Definition EATR_calculate_log_l (gamma : R) (event : list bool) (t : list R)
    (spline : R -> R) (cores : Z) (logTrick : bool) (reg_lambda : R)
    : result R :=
  cum_hazard <- Mp.pool_map cores (EATR_calculate_cum_hazard gamma spline logTrick) t ;;
  let log_hazard := EATR_calculate_log_hazard gamma t spline in
  let mean_t := Np.sum cum_hazard / INR (Np.count event) in
  log_hazard_event <- Np.mask log_hazard event ;;
  let log_l := - INR (Np.count event) * ln mean_t + Np.sum log_hazard_event
               - (1 / mean_t) * Np.sum cum_hazard in
  let gdiff := 0.5 - gamma in
  Ok (- log_l + reg_lambda * gdiff * gdiff).

Definition EATR_CDF (t : list R) (k0 gamma : R) (spline : R -> R) (cores : Z)
    (logTrick : bool) : result (list R) :=
  cum_hazard <- Mp.pool_map cores (EATR_calculate_cum_hazard gamma spline logTrick) t ;;
  Ok (map (fun h => 1 - exp (- h * k0)) cum_hazard).

Definition EATR_leastsq_cost (k0 gamma : R) (t ecdfy : list R)
    (spline : R -> R) (cores : Z) (logTrick : bool) (reg_lambda kIMD : R)
    : result R :=
  f <- EATR_CDF t k0 gamma spline 4 false ;;
  sse <- sum_sq_residuals ecdfy f ;;
  let gdiff := 0.5 - gamma in
  let kdiff := 10 * kIMD - k0 in
  Ok (sse + reg_lambda * (kdiff * kdiff + gdiff * gdiff)).

End HazardModel.

(** ** Empirical distribution and the iMetaD CDF fit *)


Definition iMetaD_CDF (t : list R) (k : R) : list R :=
  map (fun x => 1 - exp (- k * x)) t.




Section Estimators.

Context {scipy : Scipy}.


(** *** KTR estimators *)

(** With [do_bopt] the code refers to [acquisition] and [bopt], whose
    imports are commented out: a [NameError]. *)
Definition KTR_MLE_rate (vmb_average : list (Np.cell * Np.cell)) (t : list R)
    (event : list bool) (gamma_bounds : R * R) (cores : Z) (logTrick : bool)
    (reg_lambda : R) (do_bopt : bool) : result ((R * R) * (R -> R)) :=
  let unique_T := map fst vmb_average in
  let unique_V := map snd vmb_average in
  spline <- UnivariateSpline unique_T unique_V ;;
  gamma <- (if negb do_bopt then
              minimize_scalar_bounded
                (fun g => KTR_calculate_log_l g event t spline cores logTrick reg_lambda)
                gamma_bounds
            else Raise NameError) ;;
  cum_hazard <- Mp.pool_map cores (KTR_calculate_cum_hazard gamma spline logTrick) t ;;
  let mean_t := Np.sum cum_hazard / INR (Np.count event) in
  Ok ((1 / mean_t, gamma), spline).


(** *** EATR estimators *)

(** [np.nanmax(v_data, axis=0)[j]]: the largest entry of column [j] that is
    not NaN. *)
Definition nanmax (vals : list R) : Np.cell :=
  match vals with
  | [] => None
  | v :: vals' => Some (fold_left Rmax vals' v)
  end.

(** Entry [j] of [acc_average] in [EATR_calculate_avg_acc]. *)
Definition EATR_acc_average (gamma : R) (v_data : Np.matrix) (beta : R)
    (logTrick : bool) (j : nat) : Np.cell :=
  let col := Np.unmasked j (Np.rows v_data) in
  if logTrick then
    match nanmax col with
    | Some simmax_v =>
        match Np.masked_mean (map (fun v => exp (beta * gamma * (v - simmax_v))) col) with
        | Some a => Some (beta * gamma * simmax_v + ln a)
        | None => None
        end
    | None => None
    end
  else
    match Np.masked_mean (map (fun v => exp (beta * gamma * v)) col) with
    | Some a => Some (ln a)
    | None => None
    end.

Definition EATR_calculate_avg_acc (gamma : R) (v_data : Np.matrix) (beta : R)
    (ix_col : option (list R)) (logTrick : bool) : result (R -> R) :=
  let acc_average :=
    map (EATR_acc_average gamma v_data beta logTrick) (seq 0 (Np.ncols v_data)) in
  acc_average <- Np.vstack_T ix_col acc_average ;;
  UnivariateSpline (map fst acc_average) (map snd acc_average).

Definition EATR_MLE_rate (v_data : Np.matrix) (t : list R) (event : list bool)
    (gamma_bounds : R * R) (beta : R) (ix_col : option (list R)) (cores : Z)
    (logTrick : bool) (reg_lambda : R) (do_bopt : bool)
    : result ((R * R) * (R -> R)) :=
  let log_l_aa := fun gamma =>
    spline <- EATR_calculate_avg_acc gamma v_data beta ix_col logTrick ;;
    EATR_calculate_log_l gamma event t spline cores logTrick reg_lambda in
  gamma <- (if negb do_bopt then minimize_scalar_bounded log_l_aa gamma_bounds
            else Raise NameError) ;;
  spline <- EATR_calculate_avg_acc gamma v_data beta ix_col logTrick ;;
  cum_hazard <- Mp.pool_map cores (EATR_calculate_cum_hazard gamma spline logTrick) t ;;
  let mean_t := Np.sum cum_hazard / INR (Np.count event) in
  Ok ((1 / mean_t, gamma), spline).


End Estimators.

(** ** Bias aggregation *)

(** One call of the local function [fill_vmb_data]: the row written into
    [vmb_data] and the time column it returns ([None] when the replica has
    not [colvars_maxrow_count] rows). *)
Definition fill_vmb_data (maxbias : list (list R)) (data : list (list (list R)))
    (colvars_maxrow_count : nat) (colvar_index : nat)
    : result (list Np.cell * option (list R)) :=
  vmb_column_data <- Np.item maxbias colvar_index ;;
  row <- Np.assign_row colvars_maxrow_count
           (Np.pad_nan colvars_maxrow_count vmb_column_data) ;;
  replica <- Np.item data colvar_index ;;
  time <- Np.column 0 replica ;;
  Ok (row, if Nat.eqb (List.length time) colvars_maxrow_count
           then Some time else None).

(** The loop [for i in range(colvars_count)] over a fill function: the rows
    written, in order, and the last time column that was not [None]. *)
Fixpoint fill_loop (fill : nat -> result (list Np.cell * option (list R)))
    (indices : list nat) (filled : list (list Np.cell)) (ix_col : option (list R))
    : result (list (list Np.cell) * option (list R)) :=
  match indices with
  | [] => Ok (filled, ix_col)
  | i :: indices' =>
      r <- fill i ;;
      fill_loop fill indices' (filled ++ [fst r])
        (match snd r with
         | Some i_ix_col => Some i_ix_col
         | None => ix_col
         end)
  end.

Definition avg_max_bias (maxbias : list (list R)) (data : list (list (list R)))
    (colvars_count colvars_maxrow_count : nat) (beta bias_shift : R)
    : result (list (Np.cell * Np.cell)) :=
  filled <- fill_loop (fill_vmb_data maxbias data colvars_maxrow_count)
              (seq 0 colvars_count) [] None ;;
  let vmb_data := fst filled in
  let ix_col := snd filled in
  let vmb_average := Np.ma_average colvars_maxrow_count vmb_data in
  vmb_average <- Np.vstack_T ix_col vmb_average ;;
  Ok (map (fun r => (fst r, option_map (fun v => (v + bias_shift) * beta) (snd r)))
          vmb_average).

(** One call of the local function [fill_v_data]. *)
Definition fill_v_data (data : list (list (list R))) (colvars_maxrow_count : nat)
    (biascol : nat) (bias_shift : R) (colvar_index : nat)
    : result (list Np.cell * option (list R)) :=
  replica <- Np.item data colvar_index ;;
  v_column_data <- Np.column biascol replica ;;
  row <- Np.assign_row colvars_maxrow_count
           (map (option_map (fun v => v + bias_shift))
                (Np.pad_nan colvars_maxrow_count v_column_data)) ;;
  time <- Np.column 0 replica ;;
  Ok (row, if Nat.eqb (List.length time) colvars_maxrow_count
           then Some time else None).

Definition inst_bias (data : list (list (list R)))
    (colvars_count colvars_maxrow_count : nat) (beta : R) (biascol : nat)
    (bias_shift : R) : result (Np.matrix * option (list R)) :=
  filled <- fill_loop (fill_v_data data colvars_maxrow_count biascol bias_shift)
              (seq 0 colvars_count) [] None ;;
  Ok ({| Np.ncols := colvars_maxrow_count; Np.rows := fst filled |}, snd filled).

(** ** Kolmogorov-Smirnov consistency brackets (orchestrator [rates])

    The six bracket searches of [rates] are the same [while] loop.  Its
    state is the perturbed parameter, the last p-value and [good_fit]; the
    list [tried] of the parameter values probed so far is bookkeeping added
    to state properties of the run, the code does not keep it. *)

Section KSSearch.

(** What [good_fit] holds: the rate [k_i] (iMetaD) or the refitted pair
    [cdf_result_i] (KTR, EATR). *)
Variable Fit : Type.
(** The update of the parameter at the head of the loop body. *)
Variable step : R -> R.
(** The condition on the parameter in the loop test, next to [p > 0.05]. *)
Variable in_range : R -> bool.
(** The rest of the body after the [n]-th update: the fit that [good_fit]
    would take, and the p-value of its KS test. *)
Variable probe : nat -> R -> result (Fit * R).

Record ks_state : Type := {
  param : R;
  p_value : R;
  good_fit : option Fit;
  tried : list R
}.

Definition ks_init (x0 : R) : ks_state :=
  {| param := x0; p_value := 0.06; good_fit := None; tried := [] |}.

Definition ks_test (st : ks_state) : bool :=
  (if Rlt_dec 0.05 (p_value st) then true else false) && in_range (param st).

Definition ks_body (st : ks_state) : result ks_state :=
  let x := step (param st) in
  r <- probe (List.length (tried st)) x ;;
  Ok {| param := x;
        p_value := snd r;
        good_fit := if Rlt_dec 0.05 (snd r) then Some (fst r) else good_fit st;
        tried := tried st ++ [x] |}.

(** The [while] loop, run for at most [fuel] iterations: [None] when the
    loop is still running after [fuel] iterations. *)
Fixpoint ks_while (fuel : nat) (st : ks_state) : option (result ks_state) :=
  match fuel with
  | O => None
  | S fuel' =>
      if ks_test st then
        match ks_body st with
        | Ok st' => ks_while fuel' st'
        | Raise e => Some (Raise e)
        end
      else Some (Ok st)
  end.

End KSSearch.

Arguments param {Fit} _.
Arguments p_value {Fit} _.
Arguments good_fit {Fit} _.
Arguments tried {Fit} _.

Section Brackets.

Context {scipy : Scipy}.

(** *** iMetaD CDF: lower and upper rate *)






(** *** KTR and EATR CDF: lower and upper gamma *)



(** The loop [while p > 0.05 and gamma_i > gamma_bounds[0]: gamma_i -= 0.02]. *)
Definition gamma_lo_search (probe : nat -> R -> result ((R * R) * R))
    (fuel : nat) (cdf_result : R * R) (gamma_bounds : R * R)
    : option (result (ks_state (R * R))) :=
  ks_while (R * R) (fun gamma_i => gamma_i - 0.02)
    (fun gamma_i => if Rlt_dec (fst gamma_bounds) gamma_i then true else false)
    probe fuel (ks_init (R * R) (snd cdf_result)).

(** The loop [while p > 0.05 and gamma_i < gamma_bounds[1]: gamma_i += 0.02]. *)
Definition gamma_hi_search (probe : nat -> R -> result ((R * R) * R))
    (fuel : nat) (cdf_result : R * R) (gamma_bounds : R * R)
    : option (result (ks_state (R * R))) :=
  ks_while (R * R) (fun gamma_i => gamma_i + 0.02)
    (fun gamma_i => if Rlt_dec gamma_i (snd gamma_bounds) then true else false)
    probe fuel (ks_init (R * R) (snd cdf_result)).

(** The pair of result fields a gamma search sets: the rate (converted) and
    the gamma of [good_fit], or of the point estimate. *)
Definition gamma_KS_report (cdf_result : R * R) (rate_conv : R)
    (st : ks_state (R * R)) : R * R :=
  match good_fit st with
  | Some g => (fst g * rate_conv, snd g)
  | None => (fst cdf_result * rate_conv, snd cdf_result)
  end.

End Brackets.


(** ** A reference implementation of the interface

    The simplest routines that respect the calling conventions: the
    optimisers return their starting point (the bounded one its lower
    bound, after evaluating the objective there), the spline is the zero
    function.  Used to run the estimators on concrete inputs. *)
Definition scipy_sample : Scipy := {|
  minimize_scalar := fun _ => 0;
  minimize_scalar_bounded := fun f b =>
    if Rle_dec (fst b) (snd b) then (_ <- f (fst b) ;; Ok (fst b))
    else Raise ValueError;
  curve_fit_k := fun _ _ _ p0 => Ok p0;
  curve_fit_kg := fun _ _ _ p0 _ _ => Ok p0;
  minimize := fun _ x0 _ => Ok x0;
  UnivariateSpline := fun _ _ => Ok (fun _ => 0);
  ks_1samp := fun _ _ => 1;
  ks_2samp := fun _ _ => 0;
  gamma_rvs := fun _ _ _ => []
|}.


(** * Further functions of [rate_methods.py] *)

(** ** More NumPy *)

Module Np2.

(** [a[-1]] on a sequence: [IndexError] when it is empty. *)
Definition last_item {A : Type} (a : list A) : result A :=
  match rev a with
  | x :: _ => Ok x
  | [] => Raise IndexError
  end.

(** The sum [sum(diff(x) * (y[1:] + y[:-1]) / 2)] on equally long lists. *)
Fixpoint trapz_sum (y x : list R) : R :=
  match y, x with
  | y0 :: ((y1 :: _) as y'), x0 :: ((x1 :: _) as x') =>
      (x1 - x0) * (y1 + y0) / 2 + trapz_sum y' x'
  | _, _ => 0
  end.

(** [np.trapz(y, x)] for one-dimensional arrays; the element-wise product
    raises when the lengths differ. *)
Definition trapz (y x : list R) : result R :=
  if Nat.eqb (List.length y) (List.length x) then Ok (trapz_sum y x)
  else Raise ValueError.

(** [np.mean(a)] of a non-empty array. *)
Definition mean (a : list R) : R := Np.sum a / INR (List.length a).

(** [np.std(a)]: the square root of the mean squared deviation from the
    mean; NaN (here [None]) for an empty array. *)
Definition std (a : list R) : Np.cell :=
  match a with
  | [] => None
  | _ => Some (sqrt (mean (map (fun x => (x - mean a) * (x - mean a)) a)))
  end.




End Np2.

(** ** Acceleration factors *)

(** One pass of the loop of [calc_acc]: the acceleration factor of one
    replica, [np.trapz(np.exp(beta*(bias + bias_shift)), time) / time[-1]]. *)
Definition calc_acc_replica (replica : list (list R)) (tcol biascol : nat)
    (beta bias_shift : R) : result R :=
  bias <- Np.column biascol replica ;;
  time <- Np.column tcol replica ;;
  integral <- Np2.trapz (map (fun v => exp (beta * (v + bias_shift))) bias) time ;;
  last_row <- Np2.last_item replica ;;
  t_end <- Np.item last_row tcol ;;
  Ok (integral / t_end).

(** The loop [for i in range(len(data))] with its first exception. *)
Fixpoint for_each {A B : Type} (f : A -> result B) (l : list A)
    : result (list B) :=
  match l with
  | [] => Ok []
  | a :: l' =>
      b <- f a ;;
      bs <- for_each f l' ;;
      Ok (b :: bs)
  end.

Definition calc_acc (data : list (list (list R))) (tcol biascol : nat)
    (beta bias_shift : R) : result (list R) :=
  for_each (fun replica => calc_acc_replica replica tcol biascol beta bias_shift)
           data.

(** ** EATR log-likelihood with an explicit rate *)

Section HazardModelK.

Context {scipy : Scipy}.

Definition EATR_calculate_log_l_k (k gamma : R) (event : list bool)
    (t : list R) (spline : R -> R) (cores : Z) (logTrick : bool)
    (reg_lambda : R) : result R :=
  cum_hazard <- Mp.pool_map cores (EATR_calculate_cum_hazard gamma spline logTrick) t ;;
  let log_hazard := EATR_calculate_log_hazard gamma t spline in
  log_hazard_event <- Np.mask log_hazard event ;;
  let log_l := INR (Np.count event) * ln k + Np.sum log_hazard_event
               - k * Np.sum cum_hazard in
  let gdiff := 0.5 - gamma in
  Ok (- log_l + reg_lambda * gdiff * gdiff).

End HazardModelK.

(** ** Pieces of the orchestrator [rates] *)

(** The update of [colvars_maxrow_count] after a replica is loaded:
    [shape[0] if count is None or count < shape[0] else count]. *)
Definition maxrow_update (count : option nat) (n_rows : nat) : option nat :=
  match count with
  | None => Some n_rows
  | Some c => if Nat.ltb c n_rows then Some n_rows else Some c
  end.

(** [colvars_maxrow_count] when the loading loop is over; [None] for no
    replica. *)
Definition colvars_maxrow_count (data : list (list (list R))) : option nat :=
  fold_left (fun count replica => maxrow_update count (List.length replica))
            data None.

(** The loop of the local function [set_max_accumulate] over the rows:
    [max_value_found] and the entries written to [maxset]. *)
Fixpoint running_max (max_value_found : option R) (col : list R) : list R :=
  match col with
  | [] => []
  | x :: col' =>
      let m := match max_value_found with
               | None => x
               | Some m0 => if Rlt_dec m0 x then x else m0
               end in
      m :: running_max (Some m) col'
  end.

(** [set_max_accumulate(dataset, maxset, numcol)]: the content of [maxset]
    (as long as [dataset]) when the call returns. *)
Definition set_max_accumulate (dataset : list (list R)) (numcol : nat)
    : result (list R) :=
  col <- Np.column numcol dataset ;;
  Ok (running_max None col).

(** The rows of [final_times]: the last time of every replica and its
    rescaled time -- the last time multiplied by the last entry of the
    acceleration column when there is one, by the factor of [calc_acc]
    otherwise. *)
Definition final_time_row (columns_time : nat) (columns_acc : option nat)
    (replica : list (list R)) : result (R * R) :=
  last_row <- Np2.last_item replica ;;
  t_end <- Np.item last_row columns_time ;;
  match columns_acc with
  | Some c => a <- Np.item last_row c ;; Ok (t_end, t_end * a)
  | None => Ok (t_end, 0)
  end.

Definition final_times (data : list (list (list R))) (columns_time : nat)
    (columns_bias : nat) (columns_acc : option nat) (beta bias_shift : R)
    : result (list (R * R)) :=
  rows <- for_each (final_time_row columns_time columns_acc) data ;;
  match columns_acc with
  | Some _ => Ok rows
  | None =>
      acc <- calc_acc data columns_time columns_bias beta bias_shift ;;
      taus <- Np.broadcast Rmult (map fst rows) acc ;;
      Ok (combine (map fst rows) taus)
  end.

(** ** Bootstrap *)

Section Bootstrap.

Variable A : Type.
(** [random.choices(population, k=k)] at the [n]-th call. *)
Variable choices : nat -> list A -> nat -> list A.

(** What [bootstrap] returns for the four combinations of [double] and
    [return_stat]. *)
Inductive bootstrap_result : Type :=
| Std (s : Np.cell)
| StdStat (s : Np.cell) (stat : list R)
| Std2 (s s2 : Np.cell)
| Std2Stat (s s2 : Np.cell) (stats : list (R * R)).

(** The loop [for i in range(nresamples)] from iteration [i] on; [func]
    returns a number, or a pair when [double]. *)
Fixpoint bootstrap_loop (double : bool) (sample : list A)
    (func : list A -> result (if double then (R * R)%type else R))
    (i nresamples : nat) : result (list (if double then (R * R)%type else R)) :=
  match nresamples with
  | O => Ok []
  | S n =>
      let resample := choices i sample (List.length sample) in
      v <- func resample ;;
      vs <- bootstrap_loop double sample func (S i) n ;;
      Ok (v :: vs)
  end.

Definition bootstrap (sample : list A) (double : bool)
    (func : list A -> result (if double then (R * R)%type else R))
    (nresamples : nat) (return_stat : bool) : result bootstrap_result :=
  (if double as d
      return (list A -> result (if d then (R * R)%type else R)) ->
             result bootstrap_result
   then fun func =>
     stats <- bootstrap_loop true sample func 0 nresamples ;;
     let stat := map fst stats in
     let stat2 := map snd stats in
     if return_stat
     then Ok (Std2Stat (Np2.std stat) (Np2.std stat2) (combine stat stat2))
     else Ok (Std2 (Np2.std stat) (Np2.std stat2))
   else fun func =>
     stat <- bootstrap_loop false sample func 0 nresamples ;;
     if return_stat then Ok (StdStat (Np2.std stat) stat)
     else Ok (Std (Np2.std stat))) func.

End Bootstrap.

(** ** The gamma scan of [rates_scan_full_iters_error.py] *)

Section Scan.

Context {scipy : Scipy}.




End Scan.
(** * Notions of the specification *)

(** The entries of [a] at the replicas that transitioned, read off the
    replicas as pairs (value, event flag). *)
Definition transitioned (a : list R) (event : list bool) : list R :=
  map fst (filter snd (combine a event)).

(** The negative profile log-likelihood as the specification words it, for
    a cumulative hazard [H] and a log-hazard [h] per replica time:
    [-[ -M*log(mean_t) + sum(h over transitioned) - (1/mean_t)*sum(H) ]
     + lambda*(0.5-gamma)^2] with [mean_t = sum(H)/M], [M] the number of
    transitioned replicas. *)
Definition neg_profile_log_l (H h : R -> R) (reg_lambda gamma : R)
    (t : list R) (event : list bool) : R :=
  let M := INR (List.length (transitioned t event)) in
  let sum_H := Np.sum (map H t) in
  let mean_t := sum_H / M in
  - (- M * ln mean_t + Np.sum (map h (transitioned t event))
     - (1 / mean_t) * sum_H)
  + reg_lambda * (0.5 - gamma) ^ 2.



(** The composite trapezoidal rule with [n] panels of width [h] from 0:
    the sum of the areas [h/2 * (f(x_i) + f(x_i+1))], [x_i = i*h]. *)
Definition trapezoid (f : R -> R) (h : R) (n : nat) : R :=
  Np.sum (map (fun i => h / 2 * (f (INR i * h) + f (INR (S i) * h))) (seq 0 n)).

(** The trapezoidal rule with step [h] over [[0, t]] for a real [t >= 0]:
    the full panels up to the last node [n*h <= t], and the panel that is
    left from that node to [t]. *)
Definition trapezoid_to (f : R -> R) (h t : R) : R :=
  let n := Z.to_nat (Zfloor (t / h)) in
  trapezoid f h n + (t - INR n * h) / 2 * (f (INR n * h) + f t).

(** The model CDF at one time, [1 - exp(-k0 * H(t))], for a cumulative
    hazard [H]. *)
Definition model_cdf (H : R -> R) (k0 t : R) : R := 1 - exp (- k0 * H t).




(** An ensemble none of whose replicas reaches [maxrow] rows: every replica
    is a table with fewer than [maxrow] rows, each row holding the time in
    column 0 and the bias in column [biascol]; [maxbias] holds one
    running-maximum series per replica, as long as the replica. *)
Definition short_ensemble (maxrow biascol : nat) (data : list (list (list R)))
    : Prop :=
  Forall (fun replica =>
            (List.length replica < maxrow)%nat /\
            Forall (fun row => (0 < List.length row)%nat /\
                               (biascol < List.length row)%nat) replica)
         data.

Definition maxbias_of (maxbias : list (list R)) (data : list (list (list R)))
    : Prop :=
  Forall2 (fun series (replica : list (list R)) =>
             List.length series = List.length replica)
          maxbias data.

(** The contract of the bounded scalar minimiser: on an interval
    [lo <= hi] on which the objective can be evaluated it returns a point
    of the interval. *)
Definition bounded_minimiser_contract {scipy : Scipy} : Prop :=
  forall (f : R -> result R) (lo hi : R),
    lo <= hi ->
    (forall x, lo <= x <= hi -> exists y, f x = Ok y) ->
    exists x, minimize_scalar_bounded f (lo, hi) = Ok x /\ lo <= x <= hi.

(** The parameter after [i] updates. *)
Fixpoint iterate (step : R -> R) (i : nat) (x : R) : R :=
  match i with
  | O => x
  | S i' => step (iterate step i' x)
  end.

(** [o] is the fit of the last probe whose p-value exceeded 0.05, and
    [None] when no probe passed. *)
Definition last_pass {Fit : Type} (rs : list (Fit * R)) (o : option Fit) : Prop :=
  match o with
  | Some f =>
      exists l1 r l2,
        rs = l1 ++ r :: l2 /\ fst r = f /\ 0.05 < snd r /\
        Forall (fun r' => ~ 0.05 < snd r') l2
  | None => Forall (fun r' => ~ 0.05 < snd r') rs
  end.

(** The run of a bracket search that ended in state [st] after the probes
    [rs] (fit and p-value, one per iteration): the tried values are the
    successive updates of the starting value; every probe but the last had
    [p > 0.05]; the parameter was in range before every update;
    [good_fit] is the fit of the last probe that passed. *)
Definition bracket_trace {Fit : Type} (step : R -> R) (in_range : R -> bool)
    (probe : nat -> R -> result (Fit * R)) (x0 : R) (st : ks_state Fit)
    (rs : list (Fit * R)) : Prop :=
  let n := List.length rs in
  tried st = map (fun i => iterate step i x0) (seq 1 n) /\
  param st = iterate step n x0 /\
  p_value st = last (map snd rs) 0.06 /\
  (forall i r, nth_error rs i = Some r ->
               probe i (iterate step (S i) x0) = Ok r) /\
  (forall i r, nth_error rs i = Some r -> (S i < n)%nat -> 0.05 < snd r) /\
  (forall i, (i < n)%nat -> in_range (iterate step i x0) = true) /\
  last_pass rs (good_fit st).


(** What holds of a gamma search with the additive update [step], whose
    [i]-th tried value is [value gamma i] and whose tried values are
    ordered by [rel], for any probe: a run that ends in [st] has a trace;
    its tried values are [value gamma i], [i = 1..n], in strict order; the
    loop was left because the last p-value was not above 0.05 or gamma had
    left its bound; and every search ends. *)
Definition gamma_search_spec (step : R -> R) (value : R -> nat -> R)
    (rel : R -> R -> Prop) (in_range : R * R -> R -> bool)
    (search : (nat -> R -> result ((R * R) * R)) -> nat -> R * R -> R * R ->
              option (result (ks_state (R * R)))) : Prop :=
  (forall probe fuel cdf_result gamma_bounds st,
     search probe fuel cdf_result gamma_bounds = Some (Ok st) ->
     exists rs,
       bracket_trace step (in_range gamma_bounds)
         probe (snd cdf_result) st rs /\
       tried st = map (value (snd cdf_result)) (seq 1 (List.length rs)) /\
       Sorted rel (tried st) /\
       (~ 0.05 < p_value st \/ in_range gamma_bounds (param st) = false)) /\
  (forall probe cdf_result gamma_bounds,
     exists fuel out, search probe fuel cdf_result gamma_bounds = Some out).

(** * Properties *)

(** ** Arrays and masks *)

Lemma select_transitioned (a : list R) (event : list bool) :
  Np.select a event = transitioned a event.
Proof.
  unfold transitioned. revert event.
  induction a as [|x a IH]; intros [|b event]; simpl; try reflexivity.
  destruct b; simpl; now rewrite IH.
Qed.

Lemma mask_same_length (a : list R) (event : list bool) :
  List.length a = List.length event ->
  Np.mask a event = Ok (transitioned a event).
Proof.
  intros Hlen. unfold Np.mask.
  rewrite Hlen, Nat.eqb_refl. now rewrite select_transitioned.
Qed.

Lemma count_transitioned (a : list R) (event : list bool) :
  List.length a = List.length event ->
  Np.count event = List.length (transitioned a event).
Proof.
  unfold Np.count, transitioned. revert event.
  induction a as [|x a IH]; intros [|b event] Hlen; simpl in *;
    try reflexivity; try discriminate.
  injection Hlen as Hlen. destruct b; simpl; rewrite ?length_map;
    specialize (IH _ Hlen); rewrite length_map in IH; now rewrite IH.
Qed.

Lemma transitioned_map (f : R -> R) (a : list R) (event : list bool) :
  transitioned (map f a) event = map f (transitioned a event).
Proof.
  unfold transitioned. revert event.
  induction a as [|x a IH]; intros [|b event]; simpl; try reflexivity.
  destruct b; simpl; now rewrite IH.
Qed.

(** ** iMetaD inverse mean residence time *)



(** C9, at the failing input.  With [rescale=True] and acceleration factors
    supplied, [times *= acc] overwrites the caller's array: after the call
    on [times = [2]], [acc = [3]] the array holds [[6]]. *)
Theorem iMetaD_invMRT_rescale_mutates_times :
  exists out,
    iMetaD_invMRT [2] [true] true (Some [3]) = Ok out /\
    times_after out = [6] /\ times_after out <> [2].
Proof.
  eexists. split; [reflexivity|]. simpl.
  replace (2 * 3) with 6 by lra. split; [reflexivity|].
  intros H. injection H as H. lra.
Qed.

(** In the three other combinations of [rescale] and [acc] the array is
    left as it was. *)
Lemma iMetaD_invMRT_frame (times : list R) (event : list bool)
    (rescale : bool) (acc : option (list R)) (out : invMRT_outcome) :
  rescale = false \/ acc = None ->
  iMetaD_invMRT times event rescale acc = Ok out ->
  times_after out = times.
Proof.
  intros Hcase Hrun. unfold iMetaD_invMRT in Hrun.
  destruct rescale, acc as [a|]; try (destruct Hcase; discriminate);
    try (destruct (Np.mask times event); simpl in Hrun; [|discriminate]);
    injection Hrun as <-; reflexivity.
Qed.

(** ** Profile log-likelihood *)

Section LogLikelihood.

Context {scipy : Scipy}.

Lemma pool_map_ok (cores : Z) (f : R -> R) (l : list R) :
  (1 <= cores)%Z -> Mp.pool_map cores f l = Ok (map f l).
Proof.
  intros Hc. unfold Mp.pool_map.
  destruct (Z.ltb_spec cores 1); [lia | reflexivity].
Qed.

Lemma KTR_calculate_log_l_eq (gamma : R) (event : list bool) (t : list R)
    (spline : R -> R) (cores : Z) (logTrick : bool) (reg_lambda : R) :
  List.length t = List.length event -> (1 <= cores)%Z ->
  KTR_calculate_log_l gamma event t spline cores logTrick reg_lambda =
  Ok (neg_profile_log_l (KTR_calculate_cum_hazard gamma spline logTrick)
        (fun x => gamma * spline x) reg_lambda gamma t event).
Proof.
  intros Hlen Hc. unfold KTR_calculate_log_l, KTR_calculate_log_hazard.
  rewrite pool_map_ok by assumption. simpl.
  rewrite mask_same_length by now rewrite !length_map.
  simpl. unfold neg_profile_log_l.
  rewrite (count_transitioned t event Hlen).
  rewrite map_map, transitioned_map. f_equal. ring.
Qed.

Lemma EATR_calculate_log_l_eq (gamma : R) (event : list bool) (t : list R)
    (spline : R -> R) (cores : Z) (logTrick : bool) (reg_lambda : R) :
  List.length t = List.length event -> (1 <= cores)%Z ->
  EATR_calculate_log_l gamma event t spline cores logTrick reg_lambda =
  Ok (neg_profile_log_l (EATR_calculate_cum_hazard gamma spline logTrick)
        spline reg_lambda gamma t event).
Proof.
  intros Hlen Hc. unfold EATR_calculate_log_l, EATR_calculate_log_hazard.
  rewrite pool_map_ok by assumption. simpl.
  rewrite mask_same_length by now rewrite !length_map.
  simpl. unfold neg_profile_log_l.
  rewrite (count_transitioned t event Hlen).
  rewrite transitioned_map. f_equal. ring.
Qed.

(** C1.  For per-replica arrays [t] and [event] (one entry per replica,
    at least one transition) and a pool of at least one process,
    [KTR_calculate_log_l] and [EATR_calculate_log_l] return the negative
    profile log-likelihood of the specification, with the per-replica
    cumulative hazard of the method and the log-hazard [gamma*spline(t_i)]
    (KTR) or [spline(t_i)] (EATR). *)
Theorem calculate_log_l_formula (gamma : R) (event : list bool) (t : list R)
    (spline : R -> R) (cores : Z) (logTrick : bool) (reg_lambda : R) :
  List.length t = List.length event ->
  (1 <= cores)%Z ->
  In true event ->
  KTR_calculate_log_l gamma event t spline cores logTrick reg_lambda =
    Ok (neg_profile_log_l (KTR_calculate_cum_hazard gamma spline logTrick)
          (fun x => gamma * spline x) reg_lambda gamma t event) /\
  EATR_calculate_log_l gamma event t spline cores logTrick reg_lambda =
    Ok (neg_profile_log_l (EATR_calculate_cum_hazard gamma spline logTrick)
          spline reg_lambda gamma t event).
Proof.
  intros Hlen Hc _. split.
  - now apply KTR_calculate_log_l_eq.
  - now apply EATR_calculate_log_l_eq.
Qed.

End LogLikelihood.

Lemma calculate_log_l_formula_witness :
  List.length [1] = List.length [true] /\ (1 <= 4)%Z /\ In true [true] /\
  @KTR_calculate_log_l scipy_sample 0 [true] [1] (fun _ => 0) 4 true 0 =
    Ok (neg_profile_log_l
          (@KTR_calculate_cum_hazard scipy_sample 0 (fun _ => 0) true)
          (fun x => 0 * 0) 0 0 [1] [true]).
Proof.
  split; [reflexivity|]. split; [lia|]. split; [now left|].
  apply (@calculate_log_l_formula scipy_sample 0 [true] [1] (fun _ => 0) 4 true 0);
    [reflexivity | lia | now left].
Defined.

(** ** Regularised least-squares cost *)

(** C10.  [KTR_leastsq_cost] and [EATR_leastsq_cost] do not depend on their
    [cores] and [logTrick] arguments, nor on the maximiser the log-trick
    branch calls: the value is the one computed from the model CDF with
    [logTrick=False] (and a pool of 4), that is from the direct quadrature
    of every time. *)
Theorem leastsq_cost_ignores_logTrick (scipy scipy' : Scipy) (params : R * R)
    (k0 gamma : R) (t ecdfy : list R) (spline : R -> R) (reg_lambda kIMD : R)
    (cores cores' : Z) (logTrick logTrick' : bool) :
  (@KTR_leastsq_cost scipy params t ecdfy spline cores logTrick reg_lambda kIMD =
   @KTR_leastsq_cost scipy' params t ecdfy spline cores' logTrick' reg_lambda kIMD /\
   @KTR_leastsq_cost scipy params t ecdfy spline cores logTrick reg_lambda kIMD =
   (f <- @KTR_CDF scipy t (fst params) (snd params) spline 4 false ;;
    sse <- sum_sq_residuals ecdfy f ;;
    Ok (sse + reg_lambda * ((10 * kIMD - fst params) * (10 * kIMD - fst params)
                            + (0.5 - snd params) * (0.5 - snd params)))) /\
   @KTR_CDF scipy t (fst params) (snd params) spline 4 false =
   Ok (map (fun t_i =>
              1 - exp (- fst params
                       * quad (fun x => exp (snd params * spline x)) 0 t_i)) t)) /\
  (@EATR_leastsq_cost scipy k0 gamma t ecdfy spline cores logTrick reg_lambda kIMD =
   @EATR_leastsq_cost scipy' k0 gamma t ecdfy spline cores' logTrick' reg_lambda kIMD /\
   @EATR_leastsq_cost scipy k0 gamma t ecdfy spline cores logTrick reg_lambda kIMD =
   (f <- @EATR_CDF scipy t k0 gamma spline 4 false ;;
    sse <- sum_sq_residuals ecdfy f ;;
    Ok (sse + reg_lambda * ((10 * kIMD - k0) * (10 * kIMD - k0)
                            + (0.5 - gamma) * (0.5 - gamma)))) /\
   @EATR_CDF scipy t k0 gamma spline 4 false =
   Ok (map (fun t_i =>
              1 - exp (- quad (fun x => exp (spline x)) 0 t_i * k0)) t)).
Proof.
  repeat split; unfold KTR_CDF, EATR_CDF, Mp.pool_map; simpl;
    now rewrite map_map.
Qed.


(** ** Empirical CDF *)











(** ** The log-trick integrator *)

Section LogTrick.

Context {scipy : Scipy}.

Lemma sum_map_scale (c : R) (g : R -> R) (l : list R) :
  Np.sum (map (fun x => c * g x) l) = c * Np.sum (map g l).
Proof.
  induction l as [|x l IH]; simpl; [ring | rewrite IH; ring].
Qed.

Lemma sum_map_exp_pos (g : R -> R) (l : list R) :
  l <> [] -> 0 < Np.sum (map (fun x => exp (g x)) l).
Proof.
  intros Hne. destruct l as [|x l]; [contradiction|]. clear Hne. simpl.
  assert (H : 0 <= Np.sum (map (fun x => exp (g x)) l)).
  { induction l as [|y l IH]; simpl; [lra|].
    pose proof (exp_pos (g y)). lra. }
  pose proof (exp_pos (g x)). lra.
Qed.

(** Log-sum-exp: whatever anchor [c] is subtracted in the exponents and
    added back, the result is the plain sum of exponentials; for an empty
    sum [log(0) = -inf] and [exp(-inf) = 0]. *)
Lemma log_sum_exp_anchor (c : R) (g : R -> R) (l : list R) :
  Np.exp_ext (Np.shift c (Np.log (Np.sum (map (fun x => exp (g x - c)) l)))) =
  Np.sum (map (fun x => exp (g x)) l).
Proof.
  destruct l as [|x l].
  - simpl. unfold Np.log. destruct (Req_dec_T 0 0); [reflexivity | contradiction].
  - assert (Hpos : 0 < Np.sum (map (fun y => exp (g y - c)) (x :: l)))
      by (apply sum_map_exp_pos; discriminate).
    unfold Np.log. destruct (Req_dec_T _ 0) as [H0|_]; [lra|].
    cbn [Np.shift Np.exp_ext].
    rewrite exp_plus, exp_ln by assumption.
    rewrite <- sum_map_scale. f_equal. apply map_ext. intros y.
    rewrite <- exp_plus. f_equal. ring.
Qed.

(** What the log-trick branches compute, for every [t] and every anchor. *)
Lemma KTR_logTrick_sum (gamma : R) (spline : R -> R) (t : R) :
  KTR_calculate_cum_hazard gamma spline true t =
  0.5 * (1 + exp (gamma * spline t)
         + 2 * Np.sum (map (fun x => exp (gamma * spline x)) (tl (Np.arange 0 t 1)))).
Proof.
  unfold KTR_calculate_cum_hazard. cbv zeta.
  rewrite (log_sum_exp_anchor _ (fun x => gamma * spline x)). ring.
Qed.

Lemma EATR_logTrick_sum (gamma : R) (spline : R -> R) (t : R) :
  EATR_calculate_cum_hazard gamma spline true t =
  0.5 * (1 + exp (spline t)
         + 2 * Np.sum (map (fun x => exp (spline x)) (tl (Np.arange 0 t 1)))).
Proof.
  unfold EATR_calculate_cum_hazard. cbv zeta.
  rewrite (log_sum_exp_anchor _ spline). ring.
Qed.

Lemma Zceil_INR (n : nat) : Zceil (INR n) = Z.of_nat n.
Proof. apply Zceil_eq. rewrite <- INR_IZR_INZ. lra. Qed.

(** [np.arange(0, n, 1.)] for a whole number [n]. *)
Lemma arange_unit (n : nat) : Np.arange 0 (INR n) 1 = map INR (seq 0 n).
Proof.
  unfold Np.arange.
  replace ((INR n - 0) / 1) with (INR n) by field.
  rewrite Zceil_INR, Nat2Z.id.
  apply map_ext. intros i. ring.
Qed.

Lemma tl_arange_unit (n : nat) :
  tl (Np.arange 0 (INR n) 1) = map INR (seq 1 (n - 1)).
Proof.
  rewrite arange_unit. destruct n as [|n]; [reflexivity|].
  simpl. now rewrite Nat.sub_0_r.
Qed.

(** The trapezoidal sum in the usual closed form. *)
Lemma trapezoid_unit (f : R -> R) (n : nat) :
  trapezoid f 1 (S n) =
  0.5 * (f 0 + f (INR (S n)) + 2 * Np.sum (map f (map INR (seq 1 n)))).
Proof.
  unfold trapezoid. induction n as [|n IH].
  - simpl. replace (0 * 1) with 0 by ring. replace (1 * 1) with 1 by ring. lra.
  - rewrite seq_S, map_app, (seq_S n 1), !map_app.
    assert (Happ : forall a b, Np.sum (a ++ b) = Np.sum a + Np.sum b).
    { intros a b. induction a as [|x a IHa]; simpl; [ring | rewrite IHa; ring]. }
    rewrite !Happ, IH. cbn [map Np.sum fold_right Nat.add].
    rewrite !Rmult_1_r. lra.
Qed.

(** The log-trick branches at a whole time [n >= 1]. *)
Lemma KTR_logTrick_whole (gamma : R) (spline : R -> R) (n : nat) :
  KTR_calculate_cum_hazard gamma spline true (INR (S n)) =
  trapezoid (fun x => exp (gamma * spline x)) 1 (S n)
  + (1 - exp (gamma * spline 0)) / 2.
Proof.
  rewrite KTR_logTrick_sum, tl_arange_unit, trapezoid_unit.
  replace (S n - 1)%nat with n by lia.
  rewrite (map_map INR). lra.
Qed.

Lemma EATR_logTrick_whole (gamma : R) (spline : R -> R) (n : nat) :
  EATR_calculate_cum_hazard gamma spline true (INR (S n)) =
  trapezoid (fun x => exp (spline x)) 1 (S n) + (1 - exp (spline 0)) / 2.
Proof.
  rewrite EATR_logTrick_sum, tl_arange_unit, trapezoid_unit.
  replace (S n - 1)%nat with n by lia.
  rewrite (map_map INR). lra.
Qed.

(** C5, as amended.  At a whole time [n >= 1] the log-trick branch is, in
    exact arithmetic and whatever anchor the maximiser returned, the
    composite trapezoidal rule with step 1 over [[0, n]] of the integrand of
    the direct branch, with the integrand's value at 0 taken to be 1; it is
    that trapezoidal rule when [spline(0) = 0]. *)
Theorem logTrick_unit_trapezoid (gamma : R) (spline : R -> R) (n : nat) :
  (1 <= n)%nat ->
  (KTR_calculate_cum_hazard gamma spline true (INR n) =
     trapezoid (fun x => exp (gamma * spline x)) 1 n
     + (1 - exp (gamma * spline 0)) / 2 /\
   EATR_calculate_cum_hazard gamma spline true (INR n) =
     trapezoid (fun x => exp (spline x)) 1 n + (1 - exp (spline 0)) / 2) /\
  (spline 0 = 0 ->
   KTR_calculate_cum_hazard gamma spline true (INR n) =
     trapezoid (fun x => exp (gamma * spline x)) 1 n /\
   EATR_calculate_cum_hazard gamma spline true (INR n) =
     trapezoid (fun x => exp (spline x)) 1 n).
Proof.
  intros Hn. destruct n as [|n]; [lia|]. clear Hn.
  pose proof (KTR_logTrick_whole gamma spline n) as HK.
  pose proof (EATR_logTrick_whole gamma spline n) as HE.
  split; [now split|].
  intros H0. rewrite HK, HE, H0, Rmult_0_r, exp_0. split; lra.
Qed.

End LogTrick.

Lemma logTrick_unit_trapezoid_witness :
  (1 <= 2)%nat /\
  @KTR_calculate_cum_hazard scipy_sample 1 (fun x => x) true (INR 2) =
  trapezoid (fun x => exp (1 * x)) 1 2.
Proof.
  split; [lia|].
  destruct (@logTrick_unit_trapezoid scipy_sample 1 (fun x => x) 2) as [_ H];
    [lia | apply H; reflexivity].
Defined.

(** C5 as stated fails in three ways.  At [t = 0] the grid of the
    log-trick branch is empty and the branch returns [0.5*(1 + 1)], while a
    trapezoidal rule over [[0, 0]] is 0.  At [t = 1/2] the branch weights
    its only panel with the full step: it returns 1 for the zero spline,
    the trapezoidal rule over [[0, 1/2]] is 1/2.  And the value of the
    integrand at 0 is taken to be 1 also when it is not: with [gamma = 1]
    and the constant spline 1 the branch returns [(1 + e)/2] at [t = 1],
    the trapezoidal rule [e]. *)
Lemma logTrick_not_trapezoid :
  (0 <= 0 /\
   @KTR_calculate_cum_hazard scipy_sample 0 (fun _ => 0) true 0 <>
     trapezoid_to (fun x => exp (0 * 0)) 1 0 /\
   @EATR_calculate_cum_hazard scipy_sample 0 (fun _ => 0) true 0 <>
     trapezoid_to (fun x => exp 0) 1 0) /\
  (0 <= 1 / 2 /\
   @KTR_calculate_cum_hazard scipy_sample 0 (fun _ => 0) true (1 / 2) <>
     trapezoid_to (fun x => exp (0 * 0)) 1 (1 / 2)) /\
  (0 <= 1 /\
   @KTR_calculate_cum_hazard scipy_sample 1 (fun _ => 1) true 1 <>
     trapezoid_to (fun x => exp (1 * 1)) 1 1).
Proof.
  assert (Hz0 : Zfloor (0 / 1) = 0%Z) by (apply Zfloor_eq; simpl; lra).
  assert (Hzh : Zfloor (1 / 2 / 1) = 0%Z) by (apply Zfloor_eq; simpl; lra).
  assert (Hz1 : Zfloor (1 / 1) = 1%Z) by (apply Zfloor_eq; simpl; lra).
  assert (Hch : Zceil ((1 / 2 - 0) / 1) = 1%Z) by (apply Zceil_eq; lra).
  split; [|split].
  - assert (Ht : forall f, trapezoid_to f 1 0 = 0).
    { intros f. unfold trapezoid_to. rewrite Hz0. simpl. unfold trapezoid.
      simpl. lra. }
    split; [lra|].
    rewrite KTR_logTrick_sum, EATR_logTrick_sum, !Ht.
    change (Np.arange 0 0 1) with (Np.arange 0 (INR 0) 1).
    rewrite (tl_arange_unit 0). simpl.
    rewrite Rmult_0_l, exp_0. split; lra.
  - split; [lra|].
    rewrite KTR_logTrick_sum. unfold trapezoid_to, trapezoid.
    rewrite Hzh. unfold Np.arange. rewrite Hch. simpl.
    rewrite Rmult_0_l, exp_0. lra.
  - split; [lra|].
    unfold trapezoid_to. rewrite Hz1.
    change (Z.to_nat 1) with 1%nat.
    change (@KTR_calculate_cum_hazard scipy_sample 1 (fun _ => 1) true 1)
      with (@KTR_calculate_cum_hazard scipy_sample 1 (fun _ => 1) true (INR 1)).
    rewrite KTR_logTrick_sum, tl_arange_unit, trapezoid_unit. simpl.
    rewrite Rmult_1_l. pose proof (exp_ineq1 1). lra.
Qed.

(** ** Quadrature *)

Lemma quad_RiemannInt (f : R -> R) (a b : R) (pr : Riemann_integrable f a b) :
  quad f a b = RiemannInt pr.
Proof.
  unfold quad. destruct (excluded_middle_informative _) as [H|H].
  - apply RiemannInt_P5.
  - exfalso. apply H. constructor. exact pr.
Qed.










(** ** The model CDF *)




Section ModelCDF.

Context {scipy : Scipy}.

Lemma KTR_CDF_eq (t : list R) (k0 gamma : R) (spline : R -> R) (cores : Z)
    (logTrick : bool) :
  KTR_CDF t k0 gamma spline cores logTrick =
  Ok (map (model_cdf (KTR_calculate_cum_hazard gamma spline logTrick) k0) t).
Proof.
  unfold KTR_CDF, Mp.pool_map. simpl. now rewrite map_map.
Qed.



Lemma INR_Zceil_ge (t : R) : t <= INR (Z.to_nat (Zceil t)).
Proof.
  destruct (Zceil_bound t) as [_ Hup].
  destruct (Z_lt_le_dec (Zceil t) 0) as [Hneg|Hpos].
  - replace (Z.to_nat (Zceil t)) with 0%nat by lia.
    apply IZR_lt in Hneg. simpl. lra.
  - rewrite INR_IZR_INZ, Z2Nat.id by assumption. exact Hup.
Qed.




End ModelCDF.

Section ModelCDFShape.

Context {scipy : Scipy}.



End ModelCDFShape.





(** ** Bias aggregation without a replica of maximal length *)

Lemma column_ok (k : nat) (a : list (list R)) :
  Forall (fun row => (k < List.length row)%nat) a ->
  exists c, Np.column k a = Ok c /\ List.length c = List.length a.
Proof.
  induction 1 as [|row a Hrow _ [c [Hc Hlen]]]; simpl.
  - now exists [].
  - unfold Np.item. destruct (nth_error row k) as [x|] eqn:Hx.
    + simpl. rewrite Hc. simpl. exists (x :: c). simpl. now rewrite Hlen.
    + apply nth_error_None in Hx. lia.
Qed.

Lemma pad_nan_length (n : nat) (col : list R) :
  (List.length col <= n)%nat -> List.length (Np.pad_nan n col) = n.
Proof.
  intros H. unfold Np.pad_nan. rewrite length_app, length_map, repeat_length. lia.
Qed.

Lemma assign_row_fits (n : nat) (row : list Np.cell) :
  List.length row = n -> Np.assign_row n row = Ok row.
Proof. intros H. unfold Np.assign_row. now rewrite H, Nat.eqb_refl. Qed.

(** A loop all of whose fills succeed without a time column keeps
    [ix_col] and appends one row per index. *)
Lemma fill_loop_no_time (fill : nat -> result (list Np.cell * option (list R)))
    (indices : list nat) (filled : list (list Np.cell)) (ix_col : option (list R)) :
  (forall i, In i indices -> exists row, fill i = Ok (row, None)) ->
  exists rows,
    fill_loop fill indices filled ix_col = Ok (filled ++ rows, ix_col) /\
    List.length rows = List.length indices.
Proof.
  revert filled. induction indices as [|i indices IH]; intros filled Hfill; simpl.
  - exists []. now rewrite app_nil_r.
  - destruct (Hfill i (or_introl eq_refl)) as [row Hrow]. rewrite Hrow. simpl.
    destruct (IH (filled ++ [row])) as (rows & Hrun & Hlen).
    { intros j Hj. apply Hfill. now right. }
    exists (row :: rows). rewrite Hrun, <- app_assoc. simpl. now rewrite Hlen.
Qed.

Lemma fill_v_data_short (data : list (list (list R))) (maxrow biascol : nat)
    (bias_shift : R) (i : nat) :
  short_ensemble maxrow biascol data -> (i < List.length data)%nat ->
  exists row, fill_v_data data maxrow biascol bias_shift i = Ok (row, None).
Proof.
  intros Hshort Hi. unfold fill_v_data, Np.item.
  destruct (nth_error data i) as [replica|] eqn:Hrep;
    [|apply nth_error_None in Hrep; lia].
  simpl. unfold short_ensemble in Hshort. rewrite Forall_forall in Hshort.
  destruct (Hshort replica (nth_error_In _ _ Hrep)) as [Hrows Hcols].
  destruct (column_ok biascol replica) as (c & -> & Hc).
  { eapply Forall_impl; [|exact Hcols]. simpl. tauto. }
  simpl.
  rewrite assign_row_fits
    by (rewrite length_map; apply pad_nan_length; lia).
  simpl.
  destruct (column_ok 0 replica) as (tc & -> & Htc).
  { eapply Forall_impl; [|exact Hcols]. simpl. tauto. }
  simpl. eexists.
  destruct (Nat.eqb_spec (List.length tc) maxrow); [lia | reflexivity].
Qed.

Lemma fill_vmb_data_short (maxbias : list (list R)) (data : list (list (list R)))
    (maxrow biascol : nat) (i : nat) :
  short_ensemble maxrow biascol data -> maxbias_of maxbias data ->
  (i < List.length data)%nat ->
  exists row, fill_vmb_data maxbias data maxrow i = Ok (row, None).
Proof.
  intros Hshort Hmb Hi. unfold fill_vmb_data, Np.item.
  destruct (nth_error data i) as [replica|] eqn:Hrep;
    [|apply nth_error_None in Hrep; lia].
  unfold short_ensemble in Hshort. rewrite Forall_forall in Hshort.
  destruct (Hshort replica (nth_error_In _ _ Hrep)) as [Hrows Hcols].
  destruct (nth_error maxbias i) as [series|] eqn:Hser.
  2:{ apply nth_error_None in Hser. apply Forall2_length in Hmb. lia. }
  assert (Hlen : List.length series = List.length replica).
  { clear - Hmb Hrep Hser. revert i Hrep Hser.
    induction Hmb as [|s r mb d Hsr _ IH]; intros [|i]; simpl; try discriminate.
    - now intros [= <-] [= <-].
    - apply IH. }
  simpl.
  rewrite assign_row_fits by (apply pad_nan_length; lia).
  simpl.
  destruct (column_ok 0 replica) as (tc & -> & Htc).
  { eapply Forall_impl; [|exact Hcols]. simpl. tauto. }
  simpl. eexists.
  destruct (Nat.eqb_spec (List.length tc) maxrow); [lia | reflexivity].
Qed.

(** C7, as amended.  When every replica has fewer rows than the given
    maximum row count (an empty ensemble included), [inst_bias] does not
    fail: it returns the padded bias matrix and [ix_col = None].
    [avg_max_bias] raises, from stacking the missing time axis on the
    averages, when the maximum row count is not 1. *)
Theorem bias_aggregation_without_time_axis (maxbias : list (list R))
    (data : list (list (list R))) (maxrow biascol : nat)
    (beta bias_shift : R) :
  short_ensemble maxrow biascol data -> maxbias_of maxbias data ->
  (exists rows,
     inst_bias data (List.length data) maxrow beta biascol bias_shift =
       Ok ({| Np.ncols := maxrow; Np.rows := rows |}, None) /\
     List.length rows = List.length data) /\
  (maxrow <> 1%nat ->
   avg_max_bias maxbias data (List.length data) maxrow beta bias_shift =
     Raise ValueError).
Proof.
  intros Hshort Hmb.
  split.
  - unfold inst_bias.
    destruct (fill_loop_no_time
                (fill_v_data data maxrow biascol bias_shift)
                (seq 0 (List.length data)) [] None) as (rows & Hrun & Hlen).
    { intros i Hi. apply in_seq in Hi. apply fill_v_data_short; [assumption|lia]. }
    rewrite Hrun. simpl. exists rows. split; [reflexivity|].
    now rewrite Hlen, length_seq.
  - intros Hne. unfold avg_max_bias.
    destruct (fill_loop_no_time
                (fill_vmb_data maxbias data maxrow)
                (seq 0 (List.length data)) [] None) as (rows & Hrun & Hlen).
    { intros i Hi. apply in_seq in Hi.
      apply (fill_vmb_data_short _ _ _ biascol); [assumption..|lia]. }
    rewrite Hrun. simpl. unfold Np.vstack_T, Np.ma_average.
    rewrite length_map, length_seq.
    destruct (Nat.eqb_spec maxrow 1); [contradiction | reflexivity].
Qed.

Lemma bias_aggregation_without_time_axis_witness :
  short_ensemble 2 1 [[[0; 5]]] /\ maxbias_of [[5]] [[[0; 5]]] /\
  inst_bias [[[0; 5]]] 1 2 1 1 0 =
    Ok ({| Np.ncols := 2; Np.rows := [[Some (5 + 0); None]] |}, None) /\
  avg_max_bias [[5]] [[[0; 5]]] 1 2 1 0 = Raise ValueError.
Proof.
  assert (Hs : short_ensemble 2 1 [[[0; 5]]]).
  { repeat constructor. }
  assert (Hm : maxbias_of [[5]] [[[0; 5]]]).
  { repeat constructor. }
  split; [exact Hs|]. split; [exact Hm|].
  destruct (bias_aggregation_without_time_axis [[5]] [[[0; 5]]] 2 1 1 0 Hs Hm)
    as (_ & Havg).
  split; [reflexivity|]. apply Havg. discriminate.
Defined.

(** C7 as stated fails for [inst_bias]: on the empty ensemble, and on one
    replica of one row with a maximum row count of 2, it returns normally
    with [ix_col = None]. *)
Lemma inst_bias_returns_without_time_axis :
  inst_bias [] 0 3 1 1 0 = Ok ({| Np.ncols := 3; Np.rows := [] |}, None) /\
  inst_bias [[[0; 5]]] 1 2 1 1 0 =
    Ok ({| Np.ncols := 2; Np.rows := [[Some (5 + 0); None]] |}, None) /\
  List.length [[0; 5]] <> 2%nat.
Proof. repeat split. discriminate. Qed.

(** ** Maximum-likelihood estimators *)

Section MLE.

Context {scipy : Scipy}.

Lemma inv_mean (S M : R) : 1 / (S / M) = M / S.
Proof.
  unfold Rdiv. rewrite Rmult_1_l, Rinv_mult, Rinv_inv. apply Rmult_comm.
Qed.

(** C4.  In the default path ([do_bopt=False]), for per-replica arrays with
    at least one transition, a pool of at least one process and bounds
    [lo <= hi]: the gamma that [KTR_MLE_rate] and [EATR_MLE_rate] return is
    the result of the bounded scalar minimiser on the negative profile
    log-likelihood over [(lo, hi)], it lies in [[lo, hi]], and the returned
    rate is [M / sum_i H(t_i; gamma)] with [M] the number of transitioned
    replicas and the sum over all replicas. *)
Theorem MLE_rate_gamma_and_rate (vmb_average : list (Np.cell * Np.cell))
    (v_data : Np.matrix) (beta : R) (ix_col : option (list R))
    (t : list R) (event : list bool) (lo hi : R) (cores : Z)
    (logTrick : bool) (reg_lambda : R) (spline : R -> R) :
  bounded_minimiser_contract ->
  List.length t = List.length event ->
  (1 <= cores)%Z ->
  In true event ->
  lo <= hi ->
  UnivariateSpline (map fst vmb_average) (map snd vmb_average) = Ok spline ->
  (forall g, lo <= g <= hi ->
     exists s, EATR_calculate_avg_acc g v_data beta ix_col logTrick = Ok s) ->
  let M := INR (List.length (transitioned t event)) in
  (exists gamma,
     minimize_scalar_bounded
       (fun g => KTR_calculate_log_l g event t spline cores logTrick reg_lambda)
       (lo, hi) = Ok gamma /\
     lo <= gamma <= hi /\
     KTR_MLE_rate vmb_average t event (lo, hi) cores logTrick reg_lambda false =
       Ok ((M / Np.sum (map (KTR_calculate_cum_hazard gamma spline logTrick) t),
            gamma), spline)) /\
  (exists gamma s,
     minimize_scalar_bounded
       (fun g =>
          s <- EATR_calculate_avg_acc g v_data beta ix_col logTrick ;;
          EATR_calculate_log_l g event t s cores logTrick reg_lambda)
       (lo, hi) = Ok gamma /\
     lo <= gamma <= hi /\
     EATR_calculate_avg_acc gamma v_data beta ix_col logTrick = Ok s /\
     EATR_MLE_rate v_data t event (lo, hi) beta ix_col cores logTrick
       reg_lambda false =
       Ok ((M / Np.sum (map (EATR_calculate_cum_hazard gamma s logTrick) t),
            gamma), s)).
Proof.
  intros Hmin Hlen Hc _ Hb Hspl Hacc M. split.
  - destruct (Hmin (fun g => KTR_calculate_log_l g event t spline cores
                               logTrick reg_lambda) lo hi Hb)
      as (gamma & Hg & Hin).
    { intros x _. eexists. now apply KTR_calculate_log_l_eq. }
    exists gamma. split; [exact Hg|]. split; [exact Hin|].
    unfold KTR_MLE_rate. rewrite Hspl. cbn [bind negb]. rewrite Hg.
    cbn [bind]. rewrite pool_map_ok by assumption. cbn [bind].
    rewrite inv_mean, (count_transitioned t event Hlen). reflexivity.
  - destruct (Hmin (fun g =>
                      s <- EATR_calculate_avg_acc g v_data beta ix_col logTrick ;;
                      EATR_calculate_log_l g event t s cores logTrick reg_lambda)
                   lo hi Hb)
      as (gamma & Hg & Hin).
    { intros x Hx. destruct (Hacc x Hx) as [s Hs]. rewrite Hs. cbn [bind].
      eexists. now apply EATR_calculate_log_l_eq. }
    destruct (Hacc gamma Hin) as [s Hs].
    exists gamma, s. split; [exact Hg|]. split; [exact Hin|]. split; [exact Hs|].
    unfold EATR_MLE_rate. cbn [negb]. rewrite Hg. cbn [bind]. rewrite Hs.
    cbn [bind]. rewrite pool_map_ok by assumption. cbn [bind].
    rewrite inv_mean, (count_transitioned t event Hlen). reflexivity.
Qed.

End MLE.

Lemma scipy_sample_bounded_contract : @bounded_minimiser_contract scipy_sample.
Proof.
  intros f lo hi Hb Hf. exists lo. simpl.
  destruct (Rle_dec lo hi) as [_|Hn]; [|contradiction].
  destruct (Hf lo) as [y ->]; [lra|]. simpl. split; [reflexivity | lra].
Qed.

Lemma MLE_rate_gamma_and_rate_witness :
  @bounded_minimiser_contract scipy_sample /\
  List.length [1] = List.length [true] /\ (1 <= 4)%Z /\ In true [true] /\
  0 <= 1 /\
  exists gamma,
    0 <= gamma <= 1 /\
    @KTR_MLE_rate scipy_sample [(Some 0, Some 0)] [1] [true] (0, 1) 4 true 0 false =
      Ok ((INR 1 / Np.sum (map (@KTR_calculate_cum_hazard scipy_sample gamma
                                  (fun _ => 0) true) [1]), gamma),
          fun _ => 0).
Proof.
  split; [apply scipy_sample_bounded_contract|].
  split; [reflexivity|]. split; [lia|]. split; [now left|]. split; [lra|].
  destruct (@MLE_rate_gamma_and_rate scipy_sample [(Some 0, Some 0)]
              {| Np.ncols := 1; Np.rows := [[Some 0]] |} 1 (Some [0])
              [1] [true] 0 1 4 true 0 (fun _ => 0))
    as [(gamma & _ & Hin & Hrate) _].
  - apply scipy_sample_bounded_contract.
  - reflexivity.
  - lia.
  - now left.
  - lra.
  - reflexivity.
  - intros g _. eexists. reflexivity.
  - exists gamma. split; [exact Hin | exact Hrate].
Defined.

(** ** Kolmogorov-Smirnov bracket searches *)

Section KSSearchFacts.

Variable Fit : Type.
Variable step : R -> R.
Variable in_range : R -> bool.
Variable probe : nat -> R -> result (Fit * R).

Lemma last_pass_snoc (rs : list (Fit * R)) (o : option Fit) (r : Fit * R) :
  last_pass rs o ->
  last_pass (rs ++ [r]) (if Rlt_dec 0.05 (snd r) then Some (fst r) else o).
Proof.
  intros Hlp. destruct (Rlt_dec 0.05 (snd r)) as [Hp|Hp].
  - exists rs, r, []. repeat split; trivial.
  - destruct o as [f|]; simpl in *.
    + destruct Hlp as (l1 & r0 & l2 & -> & Hf & Hp0 & Hl2).
      exists l1, r0, (l2 ++ [r]). rewrite <- app_assoc. repeat split; trivial.
      apply Forall_app. split; [assumption | now constructor].
    + apply Forall_app. split; [assumption | now constructor].
Qed.

Lemma bracket_trace_init (x0 : R) :
  bracket_trace step in_range probe x0 (ks_init Fit x0) [].
Proof.
  unfold bracket_trace. simpl. repeat split; try constructor.
  - intros [|i] r H; discriminate.
  - intros [|i] r H; discriminate.
  - intros i Hi. lia.
Qed.

(** One iteration of the loop extends the trace by its probe. *)
Lemma bracket_trace_step (x0 : R) (st st' : ks_state Fit) (rs : list (Fit * R)) :
  bracket_trace step in_range probe x0 st rs ->
  ks_test Fit in_range st = true ->
  ks_body Fit step probe st = Ok st' ->
  exists r, bracket_trace step in_range probe x0 st' (rs ++ [r]).
Proof.
  intros (Htried & Hparam & Hp & Hprobe & Hpass & Hrange & Hlast) Htest Hbody.
  unfold ks_body in Hbody.
  assert (Hn : List.length (tried st) = List.length rs)
    by (rewrite Htried, length_map, length_seq; reflexivity).
  rewrite Hn, Hparam in Hbody.
  destruct (probe (List.length rs) (step (iterate step (List.length rs) x0)))
    as [r|e] eqn:Hr; simpl in Hbody; [|discriminate].
  injection Hbody as <-. exists r.
  unfold ks_test in Htest. apply andb_prop in Htest as [Htp Htr].
  destruct (Rlt_dec 0.05 (p_value st)) as [Hpv|]; [|discriminate].
  unfold bracket_trace. simpl. rewrite length_app. simpl.
  replace (List.length rs + 1)%nat with (S (List.length rs)) by lia.
  split; [|split; [|split; [|split; [|split; [|split]]]]].
  - rewrite seq_S, map_app, Htried. reflexivity.
  - reflexivity.
  - rewrite map_app. cbn [map]. now rewrite last_last.
  - intros i r' Hi. destruct (Nat.lt_ge_cases i (List.length rs)) as [Hlt|Hge].
    + rewrite nth_error_app1 in Hi by assumption. now apply Hprobe.
    + rewrite nth_error_app2 in Hi by assumption.
      destruct (i - List.length rs)%nat as [|j] eqn:Hj; simpl in Hi.
      * injection Hi as <-. replace i with (List.length rs) by lia. exact Hr.
      * destruct j; discriminate.
  - intros i r' Hi Hlt.
    rewrite nth_error_app1 in Hi by lia.
    destruct (Nat.eq_dec (S i) (List.length rs)) as [Heq|Hne].
    + (* the last probe before this one: its p-value let the loop go on *)
      rewrite Hp in Hpv.
      assert (Hsnd : nth_error (map snd rs) i = Some (snd r'))
        by now apply map_nth_error.
      assert (Hl : last (map snd rs) 0.06 = snd r').
      { clear - Hsnd Heq. rewrite <- (length_map snd) in Heq.
        revert i Hsnd Heq. generalize (map snd rs) as l.
        induction l as [|a l IH]; intros [|i] Hs He; simpl in *;
          try discriminate.
        - destruct l; [now injection Hs | discriminate].
        - destruct l as [|b l]; [destruct i; discriminate|].
          apply (IH i); [exact Hs | lia]. }
      now rewrite Hl in Hpv.
    + apply (Hpass i); [assumption | lia].
  - intros i Hi. destruct (Nat.eq_dec i (List.length rs)) as [->|Hne].
    + now rewrite <- Hparam.
    + apply Hrange. lia.
  - now apply last_pass_snoc.
Qed.

(** A search that ends normally ends with a trace, and with the loop test
    false. *)
Lemma ks_while_trace (fuel : nat) (x0 : R) (st0 st : ks_state Fit)
    (rs0 : list (Fit * R)) :
  bracket_trace step in_range probe x0 st0 rs0 ->
  ks_while Fit step in_range probe fuel st0 = Some (Ok st) ->
  exists rs,
    bracket_trace step in_range probe x0 st rs /\
    ks_test Fit in_range st = false.
Proof.
  revert st0 rs0. induction fuel as [|fuel IH]; intros st0 rs0 Htr Hrun;
    simpl in Hrun; [discriminate|].
  destruct (ks_test Fit in_range st0) eqn:Htest.
  - destruct (ks_body Fit step probe st0) as [st'|e] eqn:Hbody;
      [|discriminate].
    destruct (bracket_trace_step x0 st0 st' rs0 Htr Htest Hbody) as [r Htr'].
    exact (IH st' _ Htr' Hrun).
  - injection Hrun as <-. now exists rs0.
Qed.

(** More fuel does not change the outcome. *)
Lemma ks_while_more_fuel (fuel fuel' : nat) (st : ks_state Fit)
    (out : result (ks_state Fit)) :
  (fuel <= fuel')%nat ->
  ks_while Fit step in_range probe fuel st = Some out ->
  ks_while Fit step in_range probe fuel' st = Some out.
Proof.
  revert fuel' st. induction fuel as [|fuel IH]; intros fuel' st Hle Hrun;
    simpl in Hrun; [discriminate|].
  destruct fuel' as [|fuel']; [lia|]. simpl.
  destruct (ks_test Fit in_range st); [|exact Hrun].
  destruct (ks_body Fit step probe st); [|exact Hrun].
  apply IH; [lia | exact Hrun].
Qed.

End KSSearchFacts.

Section KSTermination.

Variable Fit : Type.
Variable step : R -> R.
Variable in_range : R -> bool.
Variable probe : nat -> R -> result (Fit * R).


(** With probes that cannot raise, a search does not raise. *)
Lemma ks_while_no_raise (fuel : nat) (st : ks_state Fit) (e : exn) :
  (forall n x, exists r, probe n x = Ok r) ->
  ks_while Fit step in_range probe fuel st <> Some (Raise e).
Proof.
  intros Hp. revert st. induction fuel as [|fuel IH]; intros st; simpl;
    [discriminate|].
  destruct (ks_test Fit in_range st); [|discriminate].
  unfold ks_body. destruct (Hp (List.length (tried st)) (step (param st)))
    as [r ->]. simpl. apply IH.
Qed.

(** A search whose parameter leaves the range after finitely many updates
    ends: with a measure that is positive in range and that every update
    lowers by 0.02, [fuel] iterations bring a measure of at most
    [0.02 * fuel] out of range. *)
Lemma ks_while_measure (measure : R -> R) :
  (forall x, in_range x = true -> 0 < measure x) ->
  (forall x, measure (step x) = measure x - 0.02) ->
  forall fuel st,
    measure (param st) <= 0.02 * INR fuel ->
    exists out, ks_while Fit step in_range probe (S fuel) st = Some out.
Proof.
  intros Hpos Hstep. induction fuel as [|fuel IH]; intros st Hm.
  - simpl. destruct (ks_test Fit in_range st) eqn:Htest; [|eauto].
    unfold ks_test in Htest. apply andb_prop in Htest as [_ Hr].
    apply Hpos in Hr. simpl in Hm. lra.
  - cbn [ks_while]. destruct (ks_test Fit in_range st) eqn:Htest; [|eauto].
    destruct (ks_body Fit step probe st) as [st'|e] eqn:Hbody; [|eauto].
    apply IH. unfold ks_body in Hbody.
    destruct (probe _ _); simpl in Hbody; [|discriminate].
    injection Hbody as <-. simpl. rewrite Hstep.
    rewrite S_INR in Hm. lra.
Qed.

End KSTermination.


Lemma iterate_minus (d g : R) (i : nat) :
  iterate (fun gamma_i => gamma_i - d) i g = g - d * INR i.
Proof.
  induction i as [|i IH]; [simpl; ring|].
  cbn [iterate]. rewrite IH, S_INR. ring.
Qed.




Lemma sorted_map_seq (rel : R -> R -> Prop) (x : nat -> R) (s n : nat) :
  (forall i, rel (x i) (x (S i))) -> Sorted rel (map x (seq s n)).
Proof.
  intros Hrel. revert s. induction n as [|n IH]; intros s; simpl.
  - constructor.
  - constructor; [apply IH|].
    destruct n; simpl; constructor. apply Hrel.
Qed.

Section KSBrackets.

Context {scipy : Scipy}.



(** Both gamma searches. *)
Lemma gamma_lo_search_spec :
  gamma_search_spec (fun gamma_i => gamma_i - 0.02)
    (fun gamma i => gamma - 0.02 * INR i) Rgt
    (fun gamma_bounds gamma_i =>
       if Rlt_dec (fst gamma_bounds) gamma_i then true else false)
    gamma_lo_search.
Proof.
  split.
  - intros probe fuel cdf_result gamma_bounds st Hrun.
    destruct (ks_while_trace (R * R) _ _ _ fuel (snd cdf_result) _ st []
                (bracket_trace_init (R * R) _ _ _ _) Hrun) as (rs & Htr & Hexit).
    exists rs. split; [exact Htr|].
    destruct Htr as (Htried & _).
    assert (Hclosed : tried st = map (fun i => snd cdf_result - 0.02 * INR i)
                                     (seq 1 (List.length rs))).
    { rewrite Htried. apply map_ext. intros i. apply iterate_minus. }
    split; [exact Hclosed|]. split.
    + rewrite Hclosed. apply sorted_map_seq. intros i.
      rewrite S_INR. unfold Rgt. lra.
    + unfold ks_test in Hexit. apply andb_false_iff in Hexit as [Hp|Hr].
      * left. destruct (Rlt_dec 0.05 (p_value st)); [discriminate | assumption].
      * now right.
  - intros probe cdf_result gamma_bounds.
    set (fuel := Z.to_nat (Zceil ((snd cdf_result - fst gamma_bounds) / 0.02))).
    exists (S fuel).
    apply (ks_while_measure (R * R) _ _ probe (fun x => x - fst gamma_bounds)).
    + intros x Hx. destruct (Rlt_dec (fst gamma_bounds) x); [lra | discriminate].
    + intros x. ring.
    + simpl. pose proof (INR_Zceil_ge ((snd cdf_result - fst gamma_bounds) / 0.02))
        as Hc. fold fuel in Hc.
      apply (Rmult_le_compat_l 0.02) in Hc; [|lra].
      replace (0.02 * ((snd cdf_result - fst gamma_bounds) / 0.02))
        with (snd cdf_result - fst gamma_bounds) in Hc by lra.
      exact Hc.
Qed.



End KSBrackets.



Lemma quad_const (c a b : R) : quad (fun _ => c) a b = c * (b - a).
Proof.
  change (quad (fct_cte c) a b = c * (b - a)).
  rewrite (quad_RiemannInt _ _ _ (RiemannInt_P14 a b c)). apply RiemannInt_P15.
Qed.

(** * Further properties *)

(** ** iMetaD inverse mean residence time: rescaling *)

Lemma zip_with_length (f : R -> R -> R) (a b : list R) :
  List.length a = List.length b ->
  List.length (Np.zip_with f a b) = List.length a.
Proof.
  revert b. induction a as [|x a IH]; intros [|y b] H; simpl in *;
    try discriminate; try reflexivity.
  injection H as H. now rewrite IH.
Qed.

Lemma inplace_same_length (f : R -> R -> R) (a b : list R) :
  List.length a = List.length b ->
  Np.inplace f a b = Ok (Np.zip_with f a b).
Proof. intros H. unfold Np.inplace. now rewrite H, Nat.eqb_refl. Qed.

Lemma iMetaD_invMRT_rescaled (times acc : list R) (event : list bool) :
  List.length times = List.length event ->
  List.length acc = List.length times ->
  iMetaD_invMRT times event true (Some acc) =
  Ok {| returned := Some (INR (Np.count event)
                          / Np.sum (transitioned (Np.zip_with Rmult times acc) event));
        times_after := Np.zip_with Rmult times acc;
        printed := [] |}.
Proof.
  intros Hlen Hacc. unfold iMetaD_invMRT.
  rewrite inplace_same_length by congruence. cbn [bind].
  rewrite mask_same_length by (rewrite zip_with_length; congruence).
  reflexivity.
Qed.

Lemma iMetaD_invMRT_plain (times : list R) (event : list bool) :
  List.length times = List.length event ->
  iMetaD_invMRT times event false None =
  Ok {| returned := Some (INR (Np.count event)
                          / Np.sum (transitioned times event));
        times_after := times;
        printed := [] |}.
Proof.
  intros Hlen. unfold iMetaD_invMRT. now rewrite mask_same_length.
Qed.

(** X1.  Rescaling composes as an in-place update: a call with
    [rescale=True] returns what a call without rescaling returns on the
    products [times*acc], and leaves those products in the caller's array;
    a second call with the same arguments therefore estimates from
    [times*acc*acc]. *)
Theorem iMetaD_invMRT_rescale_compounds (times acc : list R)
    (event : list bool) :
  List.length times = List.length event ->
  List.length acc = List.length times ->
  let scaled := Np.zip_with Rmult times acc in
  let scaled2 := Np.zip_with Rmult scaled acc in
  exists out plain out2 plain2,
    iMetaD_invMRT times event true (Some acc) = Ok out /\
    iMetaD_invMRT scaled event false None = Ok plain /\
    returned out = returned plain /\
    times_after out = scaled /\
    iMetaD_invMRT (times_after out) event true (Some acc) = Ok out2 /\
    iMetaD_invMRT scaled2 event false None = Ok plain2 /\
    returned out2 = returned plain2 /\
    times_after out2 = scaled2.
Proof.
  intros Hlen Hacc scaled scaled2.
  assert (Hs : List.length scaled = List.length event).
  { unfold scaled. rewrite zip_with_length; congruence. }
  assert (Hs2 : List.length scaled2 = List.length event).
  { unfold scaled2. rewrite zip_with_length; congruence. }
  do 4 eexists.
  split; [apply iMetaD_invMRT_rescaled; assumption|].
  split; [apply iMetaD_invMRT_plain; assumption|].
  split; [reflexivity|]. split; [reflexivity|].
  split.
  { apply iMetaD_invMRT_rescaled; cbn [times_after].
    - exact Hs.
    - rewrite zip_with_length; congruence. }
  split; [apply iMetaD_invMRT_plain; assumption|].
  split; reflexivity.
Qed.

Lemma iMetaD_invMRT_rescale_compounds_witness :
  exists out out2,
    iMetaD_invMRT [2] [true] true (Some [3]) = Ok out /\
    iMetaD_invMRT (times_after out) [true] true (Some [3]) = Ok out2 /\
    times_after out2 = [2 * 3 * 3].
Proof.
  destruct (iMetaD_invMRT_rescale_compounds [2] [3] [true] eq_refl eq_refl)
    as (out & _ & out2 & _ & H1 & _ & _ & _ & H5 & _ & _ & H8).
  exists out, out2. now repeat split.
Defined.

(** ** The KTR model without bias dependence *)

Lemma sum_map_one {A : Type} (l : list A) :
  Np.sum (map (fun _ => 1) l) = INR (List.length l).
Proof.
  induction l as [|x l IH]; [reflexivity|].
  cbn [map Np.sum fold_right List.length]. fold (Np.sum (map (fun _ : A => 1) l)).
  rewrite IH, S_INR. ring.
Qed.

(** X2.  With [gamma = 0] the KTR model is the exponential model of
    iMetaD, whatever the spline: by direct quadrature [KTR_CDF] returns
    [iMetaD_CDF] at every time, and with the log trick it does so at the
    whole times [t >= 1]. *)
Theorem KTR_CDF_gamma_0 {scipy : Scipy} (k0 : R) (spline : R -> R) (cores : Z)
    (t : list R) (ns : list nat) :
  Forall (fun n => (1 <= n)%nat) ns ->
  KTR_CDF t k0 0 spline cores false = Ok (iMetaD_CDF t k0) /\
  KTR_CDF (map INR ns) k0 0 spline cores true = Ok (iMetaD_CDF (map INR ns) k0).
Proof.
  intros Hns.
  assert (Hone : (fun x => exp (0 * spline x)) = (fun _ => 1)).
  { apply FunctionalExtensionality.functional_extensionality. intros x.
    now rewrite Rmult_0_l, exp_0. }
  split.
  - rewrite KTR_CDF_eq. unfold iMetaD_CDF. f_equal. apply map_ext.
    intros x. unfold model_cdf, KTR_calculate_cum_hazard. cbv zeta.
    rewrite Hone, quad_const. do 2 f_equal. ring.
  - rewrite KTR_CDF_eq. unfold iMetaD_CDF. f_equal.
    apply map_ext_in. intros x Hx. apply in_map_iff in Hx.
    destruct Hx as (n & <- & Hn). rewrite Forall_forall in Hns.
    specialize (Hns n Hn). unfold model_cdf.
    rewrite KTR_logTrick_sum, tl_arange_unit, Rmult_0_l, exp_0.
    rewrite (map_ext _ (fun _ => 1))
      by (intros y; now rewrite Rmult_0_l, exp_0).
    rewrite sum_map_one, length_map, length_seq, minus_INR by assumption.
    do 2 f_equal. simpl. lra.
Qed.

Lemma KTR_CDF_gamma_0_witness :
  Forall (fun n => (1 <= n)%nat) [1%nat; 4%nat] /\
  @KTR_CDF scipy_sample (map INR [1%nat; 4%nat]) 2 0 (fun x => x) 4 true =
    Ok (iMetaD_CDF (map INR [1%nat; 4%nat]) 2).
Proof.
  assert (H : Forall (fun n => (1 <= n)%nat) [1%nat; 4%nat])
    by (repeat constructor; lia).
  split; [exact H|].
  apply (@KTR_CDF_gamma_0 scipy_sample 2 (fun x => x) 4 [] _ H).
Defined.

(** ** The profile likelihood *)

Lemma ln_le_minus_1 (u : R) : 0 < u -> ln u <= u - 1.
Proof.
  intros Hu. pose proof (exp_ineq1_le (ln u)) as H.
  rewrite exp_ln in H by assumption. lra.
Qed.

Section Profile.

Context {scipy : Scipy}.

Lemma EATR_calculate_log_l_k_eq (k gamma : R) (event : list bool) (t : list R)
    (spline : R -> R) (cores : Z) (logTrick : bool) (reg_lambda : R) :
  List.length t = List.length event -> (1 <= cores)%Z ->
  EATR_calculate_log_l_k k gamma event t spline cores logTrick reg_lambda =
  Ok (- (INR (List.length (transitioned t event)) * ln k
         + Np.sum (map spline (transitioned t event))
         - k * Np.sum (map (EATR_calculate_cum_hazard gamma spline logTrick) t))
      + reg_lambda * (0.5 - gamma) * (0.5 - gamma)).
Proof.
  intros Hlen Hc. unfold EATR_calculate_log_l_k, EATR_calculate_log_hazard.
  rewrite pool_map_ok by assumption. cbn [bind].
  rewrite mask_same_length by now rewrite length_map.
  cbn [bind]. rewrite (count_transitioned t event Hlen), transitioned_map.
  reflexivity.
Qed.

(** X3.  The profile likelihood is the likelihood at its best rate.  For
    per-replica arrays with at least one transition and a positive total
    cumulative hazard [S], the value of [EATR_calculate_log_l] is a lower
    bound of [EATR_calculate_log_l_k] at every rate [k > 0], and the two
    agree at [k = M/S], the rate that [EATR_MLE_rate] reports. *)
Theorem EATR_profile_is_minimum_over_k (k gamma : R) (event : list bool)
    (t : list R) (spline : R -> R) (cores : Z) (logTrick : bool)
    (reg_lambda : R) :
  List.length t = List.length event ->
  (1 <= cores)%Z ->
  In true event ->
  0 < Np.sum (map (EATR_calculate_cum_hazard gamma spline logTrick) t) ->
  0 < k ->
  let M := INR (List.length (transitioned t event)) in
  let S := Np.sum (map (EATR_calculate_cum_hazard gamma spline logTrick) t) in
  exists profile at_k at_best,
    EATR_calculate_log_l gamma event t spline cores logTrick reg_lambda =
      Ok profile /\
    EATR_calculate_log_l_k k gamma event t spline cores logTrick reg_lambda =
      Ok at_k /\
    EATR_calculate_log_l_k (M / S) gamma event t spline cores logTrick
      reg_lambda = Ok at_best /\
    profile <= at_k /\ at_best = profile.
Proof.
  intros Hlen Hc Hev HS Hk M S.
  assert (HM : 0 < M).
  { unfold M. rewrite <- (count_transitioned t event Hlen).
    apply lt_0_INR. unfold Np.count.
    clear - Hev. induction event as [|b event IH]; [contradiction|].
    destruct b; simpl; [lia|]. destruct Hev as [H|H]; [discriminate|].
    now apply IH. }
  fold S in HS.
  do 3 eexists.
  split; [now apply EATR_calculate_log_l_eq|].
  split; [now apply EATR_calculate_log_l_k_eq|].
  split; [now apply EATR_calculate_log_l_k_eq|].
  unfold neg_profile_log_l. fold M. fold S.
  assert (HSM : 0 < S / M) by (apply Rdiv_lt_0_compat; assumption).
  assert (HMS : 0 < M / S) by (apply Rdiv_lt_0_compat; assumption).
  assert (Hinv : 1 / (S / M) * S = M) by (field; lra).
  assert (Hln : ln (S / M) = - ln (M / S)).
  { rewrite <- ln_Rinv by assumption. f_equal. field. lra. }
  assert (Hbest : M / S * S = M) by (field; lra).
  split.
  - pose proof (ln_le_minus_1 (k * (S / M))
                  (Rmult_lt_0_compat _ _ Hk HSM)) as Hu.
    rewrite ln_mult in Hu by assumption.
    assert (HkS : M * (k * (S / M)) = k * S) by (field; lra).
    assert (Hmul : M * (ln k + ln (S / M)) <= M * (k * (S / M) - 1))
      by (apply Rmult_le_compat_l; lra).
    nra.
  - rewrite Hln. nra.
Qed.

End Profile.

Lemma EATR_profile_is_minimum_over_k_witness :
  exists profile at_k,
    @EATR_calculate_log_l scipy_sample 0 [true] [1] (fun _ => 0) 4 true 0 =
      Ok profile /\
    @EATR_calculate_log_l_k scipy_sample 3 0 [true] [1] (fun _ => 0) 4 true 0 =
      Ok at_k /\
    profile <= at_k.
Proof.
  assert (HH : @EATR_calculate_cum_hazard scipy_sample 0 (fun _ => 0) true 1 = 1).
  { change 1 with (INR 1) at 1. rewrite EATR_logTrick_sum, tl_arange_unit.
    simpl. rewrite exp_0. lra. }
  destruct (@EATR_profile_is_minimum_over_k scipy_sample 3 0 [true] [1]
              (fun _ => 0) 4 true 0)
    as (profile & at_k & _ & Hp & Hk & _ & Hle & _).
  - reflexivity.
  - lia.
  - now left.
  - cbn [map Np.sum fold_right]. rewrite HH. lra.
  - lra.
  - exists profile, at_k. now repeat split.
Defined.

(** ** The ensemble-averaged potential of EATR *)





Lemma sum_map_const_on (g : R -> R) (c : R) (l : list R) :
  Forall (fun x => g x = c) l ->
  Np.sum (map g l) = INR (List.length l) * c.
Proof.
  induction 1 as [|x l Hx _ IH]; [simpl; ring|].
  cbn [map Np.sum fold_right List.length].
  fold (Np.sum (map g l)). rewrite IH, Hx, S_INR. ring.
Qed.

(** ** Paths of the estimators that cannot return *)

Section EstimatorErrors.

Context {scipy : Scipy}.


End EstimatorErrors.


(** ** Acceleration factors *)

Lemma trapz_sum_lower (y x : list R) :
  List.length y = List.length x ->
  Sorted Rle x -> Forall (fun v => 1 <= v) y ->
  last x 0 - hd 0 x <= Np2.trapz_sum y x.
Proof.
  revert y. induction x as [|x0 x IH]; intros [|y0 y] Hlen Hs Hy;
    simpl in Hlen; try discriminate.
  - simpl. lra.
  - injection Hlen as Hlen.
    destruct x as [|x1 x]; destruct y as [|y1 y]; try discriminate.
    + simpl. lra.
    + inversion Hs as [|? ? Hs' Hhd]; subst. inversion Hhd; subst.
      inversion Hy as [|? ? Hy0 Hy']; subst.
      specialize (IH (y1 :: y) Hlen Hs' Hy').
      inversion Hy' as [|? ? Hy1 _]; subst.
      change (Np2.trapz_sum (y0 :: y1 :: y) (x0 :: x1 :: x))
        with ((x1 - x0) * (y1 + y0) / 2 + Np2.trapz_sum (y1 :: y) (x1 :: x)).
      change (last (x0 :: x1 :: x) 0) with (last (x1 :: x) 0).
      cbn [hd] in *. nra.
Qed.

Lemma trapz_sum_ones (y x : list R) :
  List.length y = List.length x -> Forall (fun v => v = 1) y ->
  Np2.trapz_sum y x = last x 0 - hd 0 x.
Proof.
  revert y. induction x as [|x0 x IH]; intros [|y0 y] Hlen Hy;
    simpl in Hlen; try discriminate.
  - simpl. lra.
  - injection Hlen as Hlen.
    destruct x as [|x1 x]; destruct y as [|y1 y]; try discriminate.
    + simpl. lra.
    + inversion Hy as [|? ? Hy0 Hy']; subst.
      specialize (IH (y1 :: y) Hlen Hy').
      inversion Hy' as [|? ? Hy1 _]; subst.
      change (Np2.trapz_sum (1 :: 1 :: y) (x0 :: x1 :: x))
        with ((x1 - x0) * (1 + 1) / 2 + Np2.trapz_sum (1 :: y) (x1 :: x)).
      change (last (x0 :: x1 :: x) 0) with (last (x1 :: x) 0).
      cbn [hd] in *. lra.
Qed.

Lemma column_length (k : nat) (a : list (list R)) (c : list R) :
  Np.column k a = Ok c -> List.length c = List.length a.
Proof.
  revert c. induction a as [|row a IH]; intros c Hc; simpl in Hc.
  - now injection Hc as <-.
  - destruct (Np.item row k); simpl in Hc; [|discriminate].
    destruct (Np.column k a) as [c'|]; simpl in Hc; [|discriminate].
    injection Hc as <-. simpl. now rewrite (IH c' eq_refl).
Qed.

(** The last row of a table holds the last entry of each of its columns. *)
Lemma column_last (k : nat) (a : list (list R)) (c : list R) :
  a <> [] -> Np.column k a = Ok c ->
  exists row, Np2.last_item a = Ok row /\ Np.item row k = Ok (last c 0).
Proof.
  revert c. induction a as [|row a IH]; intros c Hne Hc; [contradiction|].
  simpl in Hc.
  destruct (Np.item row k) as [v|] eqn:Hv; simpl in Hc; [|discriminate].
  destruct (Np.column k a) as [c'|] eqn:Hc'; simpl in Hc; [|discriminate].
  injection Hc as <-.
  destruct a as [|row' a].
  - simpl in Hc'. injection Hc' as <-. exists row. now split.
  - destruct (IH c' ltac:(discriminate) eq_refl) as (r & Hr & Hk).
    exists r. split.
    + unfold Np2.last_item in *. simpl in *.
      destruct (rev a ++ [row']) as [|z zs] eqn:Hz; [discriminate|].
      simpl. exact Hr.
    + pose proof (column_length k (row' :: a) c' Hc') as Hl.
      destruct c' as [|w c']; [discriminate|]. exact Hk.
Qed.

(** X6.  The acceleration factor of a replica whose times do not decrease
    and whose last time is positive: it is the trapezoidal integral of
    [exp(beta*(bias + bias_shift))] over the recorded times, divided by the
    last time.  Where [beta*(bias + bias_shift)] is never negative it is at
    least [(t_last - t_first)/t_last], so at least 1 for a trajectory that
    starts at time 0; where it is zero throughout, the factor is exactly
    [(t_last - t_first)/t_last]. *)
Theorem calc_acc_replica_bounds (replica : list (list R)) (tcol biascol : nat)
    (beta bias_shift : R) (time bias : list R) :
  replica <> [] ->
  Np.column tcol replica = Ok time ->
  Np.column biascol replica = Ok bias ->
  Sorted Rle time ->
  0 < last time 0 ->
  exists a,
    calc_acc_replica replica tcol biascol beta bias_shift = Ok a /\
    a = Np2.trapz_sum (map (fun v => exp (beta * (v + bias_shift))) bias) time
        / last time 0 /\
    (Forall (fun v => 0 <= beta * (v + bias_shift)) bias ->
     (last time 0 - hd 0 time) / last time 0 <= a /\
     (hd 0 time = 0 -> 1 <= a)) /\
    (Forall (fun v => beta * (v + bias_shift) = 0) bias ->
     a = (last time 0 - hd 0 time) / last time 0).
Proof.
  intros Hne Ht Hb Hs Hpos.
  pose proof (column_length _ _ _ Ht) as Hlt.
  pose proof (column_length _ _ _ Hb) as Hlb.
  destruct (column_last tcol replica time Hne Ht) as (row & Hrow & Hend).
  unfold calc_acc_replica. rewrite Hb, Ht. cbn [bind].
  unfold Np2.trapz. rewrite length_map, Hlb, <- Hlt, Nat.eqb_refl.
  cbn [bind]. rewrite Hrow. cbn [bind]. rewrite Hend. cbn [bind].
  eexists. split; [reflexivity|]. split; [reflexivity|].
  assert (Hl : List.length (map (fun v => exp (beta * (v + bias_shift))) bias)
               = List.length time) by (rewrite length_map; congruence).
  split.
  - intros Hnn.
    assert (Hge : last time 0 - hd 0 time <=
                  Np2.trapz_sum (map (fun v => exp (beta * (v + bias_shift))) bias)
                    time).
    { apply trapz_sum_lower; trivial.
      apply Forall_map. eapply Forall_impl; [|exact Hnn].
      intros v Hv. simpl in Hv.
      pose proof (exp_ineq1_le (beta * (v + bias_shift))). lra. }
    assert (Hdiv : (last time 0 - hd 0 time) / last time 0 <=
                   Np2.trapz_sum (map (fun v => exp (beta * (v + bias_shift))) bias)
                     time / last time 0).
    { apply Rmult_le_compat_r; [|exact Hge].
      left. now apply Rinv_0_lt_compat. }
    split; [exact Hdiv|].
    intros H0. rewrite H0 in Hdiv.
    replace ((last time 0 - 0) / last time 0) with 1 in Hdiv by (field; lra).
    exact Hdiv.
  - intros Hz. f_equal. apply trapz_sum_ones; trivial.
    apply Forall_map. eapply Forall_impl; [|exact Hz].
    intros v Hv. simpl in Hv. now rewrite Hv, exp_0.
Qed.

Lemma calc_acc_replica_bounds_witness :
  [[0; 0]; [2; 0]] <> [] /\
  Np.column 0 [[0; 0]; [2; 0]] = Ok [0; 2] /\
  Np.column 1 [[0; 0]; [2; 0]] = Ok [0; 0] /\
  Sorted Rle [0; 2] /\ 0 < last [0; 2] 0 /\
  exists a, calc_acc_replica [[0; 0]; [2; 0]] 0 1 1 0 = Ok a /\
            a = (2 - 0) / 2.
Proof.
  assert (Hs : Sorted Rle [0; 2]) by (repeat constructor; lra).
  assert (Hp : 0 < last [0; 2] 0) by (simpl; lra).
  split; [discriminate|]. split; [reflexivity|]. split; [reflexivity|].
  split; [exact Hs|]. split; [exact Hp|].
  destruct (calc_acc_replica_bounds [[0; 0]; [2; 0]] 0 1 1 0 [0; 2] [0; 0])
    as (a & Ha & _ & _ & Hz); trivial; try discriminate.
  exists a. split; [exact Ha|]. apply Hz.
  repeat constructor; simpl; lra.
Defined.

(** ** The running maximum of the bias *)

Lemma running_max_length (acc : option R) (col : list R) :
  List.length (running_max acc col) = List.length col.
Proof.
  revert acc. induction col as [|x col IH]; intros acc; simpl; [reflexivity|].
  now rewrite IH.
Qed.

Lemma running_max_sorted (acc : option R) (col : list R) :
  Sorted Rle (running_max acc col) /\
  (forall a, acc = Some a -> Forall (Rle a) (running_max acc col)).
Proof.
  revert acc. induction col as [|x col IH]; intros acc; simpl.
  - split; [constructor|]. intros; constructor.
  - set (m := match acc with
              | None => x
              | Some m0 => if Rlt_dec m0 x then x else m0
              end).
    destruct (IH (Some m)) as [Hs Hall]. specialize (Hall m eq_refl).
    split.
    + constructor; [exact Hs|].
      destruct (running_max (Some m) col) as [|y ys]; constructor.
      now inversion Hall.
    + intros a ->. subst m.
      assert (Ha : a <= (if Rlt_dec a x then x else a))
        by (destruct (Rlt_dec a x); lra).
      constructor; [exact Ha|].
      eapply Forall_impl; [|exact Hall]. intros y Hy. simpl in *. lra.
Qed.

Lemma running_max_spec (col : list R) :
  forall (acc : option R) (i : nat), (i < List.length col)%nat ->
    let v := nth i (running_max acc col) 0 in
    (forall j, (j <= i)%nat -> nth j col 0 <= v) /\
    (forall a, acc = Some a -> a <= v) /\
    ((exists j, (j <= i)%nat /\ v = nth j col 0) \/ acc = Some v).
Proof.
  induction col as [|x col IH]; intros acc i Hi; [simpl in Hi; lia|].
  cbn [running_max].
  set (m := match acc with
            | None => x
            | Some m0 => if Rlt_dec m0 x then x else m0
            end).
  assert (Hxm : x <= m).
  { subst m. destruct acc as [a|]; [destruct (Rlt_dec a x)|]; lra. }
  assert (Ham : forall a, acc = Some a -> a <= m).
  { intros a ->. subst m. destruct (Rlt_dec a x); lra. }
  assert (Hm : m = x \/ acc = Some m).
  { subst m. destruct acc as [a|]; [destruct (Rlt_dec a x)|]; auto. }
  destruct i as [|i]; cbn [nth].
  - split; [|split].
    + intros j Hj. replace j with 0%nat by lia. exact Hxm.
    + exact Ham.
    + destruct Hm as [Hm|Hm]; [left; exists 0%nat; split; [lia|exact Hm]|now right].
  - simpl in Hi. destruct (IH (Some m) i ltac:(lia)) as (Hub & Hlb & Hatt).
    specialize (Hlb m eq_refl).
    split; [|split].
    + intros [|j] Hj; [lra|]. apply Hub. lia.
    + intros a Ha. specialize (Ham a Ha). lra.
    + destruct Hatt as [(j & Hj & Hv)|Hv].
      * left. exists (S j). split; [lia|exact Hv].
      * injection Hv as Hv. rewrite <- Hv.
        destruct Hm as [Hm|Hm]; [left; exists 0%nat; split; [lia|exact Hm]|now right].
Qed.

(** X7.  [set_max_accumulate] writes the running maximum of the chosen
    column: as many entries as the replica has rows, entry [i] is the
    largest of the column's entries [0..i] (an upper bound of them that is
    one of them), and the entries never decrease. *)
Theorem set_max_accumulate_running_max (dataset : list (list R)) (numcol : nat)
    (col : list R) :
  Np.column numcol dataset = Ok col ->
  exists maxset,
    set_max_accumulate dataset numcol = Ok maxset /\
    List.length maxset = List.length dataset /\
    Sorted Rle maxset /\
    forall i, (i < List.length dataset)%nat ->
      (forall j, (j <= i)%nat -> nth j col 0 <= nth i maxset 0) /\
      (exists j, (j <= i)%nat /\ nth i maxset 0 = nth j col 0).
Proof.
  intros Hcol. unfold set_max_accumulate. rewrite Hcol. cbn [bind].
  pose proof (column_length _ _ _ Hcol) as Hlen.
  eexists. split; [reflexivity|]. split; [|split].
  - now rewrite running_max_length.
  - apply running_max_sorted.
  - intros i Hi. rewrite <- Hlen in Hi.
    destruct (running_max_spec col None i Hi) as (Hub & _ & Hatt).
    split; [exact Hub|].
    destruct Hatt as [Hatt|Hatt]; [exact Hatt|discriminate].
Qed.

Lemma set_max_accumulate_running_max_witness :
  Np.column 1 [[0; 1]; [1; 3]; [2; 2]] = Ok [1; 3; 2] /\
  exists maxset,
    set_max_accumulate [[0; 1]; [1; 3]; [2; 2]] 1 = Ok maxset /\
    List.length maxset = 3%nat /\ Sorted Rle maxset.
Proof.
  split; [reflexivity|].
  destruct (set_max_accumulate_running_max [[0; 1]; [1; 3]; [2; 2]] 1 [1; 3; 2]
              eq_refl) as (maxset & Hm & Hlen & Hs & _).
  exists maxset. split; [exact Hm|]. split; [exact Hlen|exact Hs].
Defined.

(** ** The row count of the ensemble *)

Lemma maxrow_fold (data : list (list (list R))) (c : nat) :
  exists n,
    fold_left (fun count replica => maxrow_update count (List.length replica))
              data (Some c) = Some n /\
    (c <= n)%nat /\
    Forall (fun replica => (List.length replica <= n)%nat) data /\
    (n = c \/ exists replica, In replica data /\ List.length replica = n).
Proof.
  revert c. induction data as [|r data IH]; intros c; simpl.
  - exists c. repeat split; auto.
  - destruct (Nat.ltb c (List.length r)) eqn:Hlt.
    + apply Nat.ltb_lt in Hlt.
      destruct (IH (List.length r)) as (n & Hn & Hle & Hall & Hatt).
      exists n. split; [exact Hn|]. split; [lia|]. split.
      * constructor; [lia|exact Hall].
      * right. destruct Hatt as [->|(r' & Hin & Hr')].
        -- exists r. split; [now left|reflexivity].
        -- exists r'. split; [now right|exact Hr'].
    + apply Nat.ltb_ge in Hlt.
      destruct (IH c) as (n & Hn & Hle & Hall & Hatt).
      exists n. split; [exact Hn|]. split; [lia|]. split.
      * constructor; [lia|exact Hall].
      * destruct Hatt as [->|(r' & Hin & Hr')]; [now left|].
        right. exists r'. split; [now right|exact Hr'].
Qed.

Lemma colvars_maxrow_count_is_max_aux (data : list (list (list R))) :
  match colvars_maxrow_count data with
  | None => data = []
  | Some n =>
      Forall (fun replica => (List.length replica <= n)%nat) data /\
      exists replica, In replica data /\ List.length replica = n
  end.
Proof.
  unfold colvars_maxrow_count. destruct data as [|r data]; [reflexivity|].
  cbn [fold_left maxrow_update].
  destruct (maxrow_fold data (List.length r)) as (n & -> & Hle & Hall & Hatt).
  split.
  - constructor; [exact Hle|exact Hall].
  - destruct Hatt as [->|(r' & Hin & Hr')].
    + exists r. split; [now left|reflexivity].
    + exists r'. split; [now right|exact Hr'].
Qed.

(** ** Bias aggregation with the row count of the ensemble *)

(** A loop all of whose fills succeed with rows of [n] entries. *)
Lemma fill_loop_ok (n : nat)
    (fill : nat -> result (list Np.cell * option (list R)))
    (indices : list nat) :
  (forall i, In i indices ->
     exists row t, fill i = Ok (row, t) /\ List.length row = n) ->
  forall (filled : list (list Np.cell)) (ix_col : option (list R)),
  exists rows ix,
    fill_loop fill indices filled ix_col = Ok (filled ++ rows, ix) /\
    List.length rows = List.length indices /\
    Forall (fun row => List.length row = n) rows /\
    (forall c, ix = Some c ->
       ix_col = Some c \/
       exists i row, In i indices /\ fill i = Ok (row, Some c)) /\
    (ix_col <> None -> ix <> None) /\
    (forall i row c, In i indices -> fill i = Ok (row, Some c) -> ix <> None).
Proof.
  induction indices as [|i indices IH]; intros Hfill filled ix_col; simpl.
  - exists [], ix_col. rewrite app_nil_r.
    split; [reflexivity|]. split; [reflexivity|]. split; [constructor|].
    split; [now left|]. split; [trivial|]. intros ? ? ? [].
  - destruct (Hfill i (or_introl eq_refl)) as (row & t & Hrow & Hlen).
    rewrite Hrow. cbn [bind fst snd].
    destruct (IH (fun j Hj => Hfill j (or_intror Hj)) (filled ++ [row])
                (match t with Some c => Some c | None => ix_col end))
      as (rows & ix & Hrun & Hrows & Hall & Hfrom & Hkeep & Hfound).
    exists (row :: rows), ix. rewrite Hrun, <- app_assoc.
    split; [reflexivity|]. split; [simpl; now rewrite Hrows|].
    split; [now constructor|]. split; [|split].
    + intros c Hc. destruct (Hfrom c Hc) as [Hprev|(j & r & Hj & Hr)].
      * destruct t as [c'|]; [|now left].
        injection Hprev as ->. right. exists i, row. split; [now left|exact Hrow].
      * right. exists j, r. split; [now right|exact Hr].
    + intros Hne. apply Hkeep. now destruct t.
    + intros j r c [->|Hj] Hr.
      * rewrite Hrow in Hr. injection Hr as _ ->. now apply Hkeep.
      * now apply (Hfound j r c).
Qed.

Lemma fill_v_data_ok (data : list (list (list R))) (n biascol : nat)
    (bias_shift : R) (i : nat) (replica : list (list R)) :
  nth_error data i = Some replica ->
  (List.length replica <= n)%nat ->
  Forall (fun row => (0 < List.length row)%nat /\
                     (biascol < List.length row)%nat) replica ->
  exists row time,
    Np.column 0 replica = Ok time /\
    fill_v_data data n biascol bias_shift i
      = Ok (row, if Nat.eqb (List.length replica) n then Some time else None) /\
    List.length row = n.
Proof.
  intros Hrep Hle Hwf. unfold fill_v_data, Np.item. rewrite Hrep. cbn [bind].
  destruct (column_ok biascol replica) as (c & -> & Hc).
  { eapply Forall_impl; [|exact Hwf]. simpl. tauto. }
  cbn [bind].
  assert (Hpad : List.length
                   (map (option_map (fun v => v + bias_shift)) (Np.pad_nan n c))
                 = n)
    by (rewrite length_map; apply pad_nan_length; lia).
  rewrite (assign_row_fits _ _ Hpad). cbn [bind].
  destruct (column_ok 0 replica) as (time & Ht & Htl).
  { eapply Forall_impl; [|exact Hwf]. simpl. tauto. }
  rewrite Ht. cbn [bind]. rewrite Htl.
  eexists _, time. split; [reflexivity|]. split; [reflexivity|exact Hpad].
Qed.

Lemma in_seq_nth_error {A : Type} (l : list A) (i : nat) :
  In i (seq 0 (List.length l)) -> exists x, nth_error l i = Some x /\ In x l.
Proof.
  intros Hi. apply in_seq in Hi.
  destruct (nth_error l i) as [x|] eqn:Hx.
  - exists x. split; [reflexivity|]. eapply nth_error_In; eassumption.
  - apply nth_error_None in Hx. lia.
Qed.

(** X8.  With the row count that [rates] passes ([colvars_maxrow_count],
    the largest number of rows) and one fill per replica, [inst_bias] on an
    ensemble whose rows have a time column and a bias column returns a
    matrix with one row of that many cells per replica, and a time axis:
    the time column of a replica with the largest number of rows. *)
Theorem inst_bias_time_axis (data : list (list (list R))) (n : nat)
    (beta : R) (biascol : nat) (bias_shift : R) :
  Forall (Forall (fun row => (0 < List.length row)%nat /\
                             (biascol < List.length row)%nat)) data ->
  colvars_maxrow_count data = Some n ->
  exists v_data ix_col replica,
    inst_bias data (List.length data) n beta biascol bias_shift
      = Ok (v_data, Some ix_col) /\
    Np.ncols v_data = n /\
    List.length (Np.rows v_data) = List.length data /\
    Forall (fun row => List.length row = n) (Np.rows v_data) /\
    In replica data /\ List.length replica = n /\
    Np.column 0 replica = Ok ix_col.
Proof.
  intros Hwf Hn.
  pose proof (colvars_maxrow_count_is_max_aux data) as Hmax.
  rewrite Hn in Hmax. destruct Hmax as [Hle (top & Hin & Htop)].
  rewrite Forall_forall in Hwf, Hle.
  assert (Hfill : forall i, In i (seq 0 (List.length data)) ->
            exists row t, fill_v_data data n biascol bias_shift i = Ok (row, t)
                          /\ List.length row = n).
  { intros i Hi. destruct (in_seq_nth_error data i Hi) as (r & Hr & Hrin).
    destruct (fill_v_data_ok data n biascol bias_shift i r Hr (Hle r Hrin)
                (Hwf r Hrin)) as (row & time & _ & Hrow & Hlen).
    eauto. }
  destruct (fill_loop_ok n _ _ Hfill [] None)
    as (rows & ix & Hrun & Hrows & Hall & Hfrom & _ & Hfound).
  assert (Hix : ix <> None).
  { destruct (In_nth_error _ _ Hin) as [i Hi].
    destruct (fill_v_data_ok data n biascol bias_shift i top Hi (Hle top Hin)
                (Hwf top Hin)) as (row & time & _ & Hrow & _).
    rewrite Htop, Nat.eqb_refl in Hrow.
    apply (Hfound i row time); [|exact Hrow].
    apply in_seq. split; [lia|]. simpl. apply nth_error_Some. congruence. }
  destruct ix as [c|]; [|contradiction].
  destruct (Hfrom c eq_refl) as [Hc|(i & row & Hi & Hrow)]; [discriminate|].
  destruct (in_seq_nth_error data i Hi) as (r & Hr & Hrin).
  destruct (fill_v_data_ok data n biascol bias_shift i r Hr (Hle r Hrin)
              (Hwf r Hrin)) as (row' & time & Ht & Hrow' & _).
  rewrite Hrow in Hrow'.
  destruct (Nat.eqb (List.length r) n) eqn:Hrn; [|discriminate].
  injection Hrow' as _ ->. apply Nat.eqb_eq in Hrn.
  unfold inst_bias. rewrite Hrun. cbn [bind fst snd app].
  eexists _, time, r. split; [reflexivity|]. cbn [Np.ncols Np.rows].
  rewrite length_seq in Hrows. auto 10.
Qed.

Lemma inst_bias_time_axis_witness :
  exists v_data ix_col,
    inst_bias [[[0; 1]; [1; 3]]; [[0; 2]]] 2 2 1 1 0 = Ok (v_data, Some ix_col) /\
    List.length (Np.rows v_data) = 2%nat.
Proof.
  destruct (inst_bias_time_axis [[[0; 1]; [1; 3]]; [[0; 2]]] 2 1 1 0)
    as (v & ix & r & Hrun & _ & Hrows & _).
  - repeat constructor.
  - reflexivity.
  - exists v, ix. split; [exact Hrun|exact Hrows].
Defined.


(** ** Bootstrap *)

Lemma sum_sq_nonneg (g : R -> R) (l : list R) :
  0 <= Np.sum (map (fun x => g x * g x) l) /\
  (Np.sum (map (fun x => g x * g x) l) = 0 <-> Forall (fun x => g x = 0) l).
Proof.
  induction l as [|x l [IH0 IH]]; cbn [map Np.sum fold_right].
  - split; [lra|]. split; [constructor | reflexivity].
  - fold (Np.sum (map (fun x => g x * g x) l)).
    pose proof (Rle_0_sqr (g x)) as Hx. unfold Rsqr in Hx.
    split; [lra|]. split.
    + intros H. constructor; [nra | apply IH; lra].
    + intros H. inversion H as [|? ? Hgx Hl]; subst.
      apply IH in Hl. rewrite Hgx, Hl. ring.
Qed.

(** [np.std] of a non-empty array: not negative, its square is the mean
    squared deviation, and it is 0 exactly for a constant array. *)
Lemma std_spec (l : list R) :
  match Np2.std l with
  | None => l = []
  | Some s =>
      l <> [] /\ 0 <= s /\
      s * s * INR (List.length l)
        = Np.sum (map (fun x => (x - Np2.mean l) * (x - Np2.mean l)) l) /\
      (s = 0 <-> exists c, Forall (fun x => x = c) l)
  end.
Proof.
  destruct l as [|a l]; [reflexivity|].
  set (l' := a :: l). unfold Np2.std. fold l'.
  set (m := Np2.mean l').
  destruct (sum_sq_nonneg (fun x => x - m) l') as [Hnn Hz].
  set (SS := Np.sum (map (fun x => (x - m) * (x - m)) l')) in *.
  assert (Hn : 0 < INR (List.length l'))
    by (apply lt_0_INR; simpl; lia).
  assert (Hmean : Np2.mean (map (fun x => (x - m) * (x - m)) l')
                  = SS / INR (List.length l')).
  { unfold Np2.mean. now rewrite length_map. }
  rewrite Hmean.
  assert (Hq : 0 <= SS / INR (List.length l')).
  { apply Rmult_le_pos; [exact Hnn|]. left. now apply Rinv_0_lt_compat. }
  split; [subst l'; discriminate|]. split; [apply sqrt_pos|]. split.
  - rewrite (sqrt_sqrt _ Hq). field. lra.
  - split.
    + intros Hs. apply sqrt_eq_0 in Hs; [|exact Hq].
      assert (HSS : SS = 0).
      { apply (Rmult_eq_compat_r (INR (List.length l'))) in Hs.
        unfold Rdiv in Hs. rewrite Rmult_assoc, Rinv_l, Rmult_1_r, Rmult_0_l in Hs
          by lra. exact Hs. }
      exists m. apply Hz in HSS. eapply Forall_impl; [|exact HSS].
      intros x Hx. simpl in Hx. lra.
    + intros [c Hc].
      assert (Hm : m = c).
      { subst m. unfold Np2.mean.
        rewrite <- (map_id l') at 1.
        rewrite (sum_map_const_on (fun x => x) c l' Hc). field. lra. }
      assert (HSS : SS = 0).
      { apply Hz. eapply Forall_impl; [|exact Hc].
        intros x Hx. simpl in Hx. lra. }
      rewrite HSS. unfold Rdiv. rewrite Rmult_0_l. apply sqrt_0.
Qed.

Section BootstrapFacts.

Variable A : Type.
Variable choices : nat -> list A -> nat -> list A.

Lemma bootstrap_loop_values (double : bool) (sample : list A)
    (func : list A -> result (if double then (R * R)%type else R))
    (f : nat -> (if double then (R * R)%type else R)) (n : nat) :
  forall i,
    (forall j, (i <= j < i + n)%nat ->
       func (choices j sample (List.length sample)) = Ok (f j)) ->
    bootstrap_loop A choices double sample func i n = Ok (map f (seq i n)).
Proof.
  induction n as [|n IH]; intros i Hf; [reflexivity|].
  cbn [bootstrap_loop seq map]. rewrite (Hf i) by lia. cbn [bind].
  rewrite (IH (S i)) by (intros j Hj; apply Hf; lia). reflexivity.
Qed.

(** X9.  [bootstrap] of a statistic that is computed on every resample
    ([double=False]): the statistics are those of the [nresamples]
    resamples of [len(sample)] draws, in order; the value returned is their
    standard deviation about their own mean -- NaN without resamples,
    otherwise not negative, and 0 exactly when the statistic is the same on
    every resample. *)
Theorem bootstrap_spread (sample : list A) (func : list A -> result R)
    (f : nat -> R) (nresamples : nat) (return_stat : bool) :
  (forall j, (j < nresamples)%nat ->
     func (choices j sample (List.length sample)) = Ok (f j)) ->
  let stat := map f (seq 0 nresamples) in
  bootstrap A choices sample false func nresamples return_stat
    = Ok (if return_stat then StdStat (Np2.std stat) stat
          else Std (Np2.std stat)) /\
  List.length stat = nresamples /\
  match Np2.std stat with
  | None => nresamples = 0%nat
  | Some s =>
      (0 < nresamples)%nat /\ 0 <= s /\
      s * s * INR nresamples
        = Np.sum (map (fun x => (x - Np2.mean stat) * (x - Np2.mean stat)) stat) /\
      (s = 0 <-> forall i j, (i < nresamples)%nat -> (j < nresamples)%nat ->
                             f i = f j)
  end.
Proof.
  intros Hf stat.
  assert (Hlen : List.length stat = nresamples)
    by (subst stat; now rewrite length_map, length_seq).
  split; [|split; [exact Hlen|]].
  - unfold bootstrap.
    rewrite (bootstrap_loop_values false sample func f nresamples 0)
      by (intros j Hj; apply Hf; lia).
    cbn [bind]. fold stat. now destruct return_stat.
  - pose proof (std_spec stat) as Hstd.
    destruct (Np2.std stat) as [s|].
    + destruct Hstd as (Hne & Hs & Hsq & Hz). rewrite Hlen in Hsq.
      split; [|split; [exact Hs|split; [exact Hsq|]]].
      { destruct nresamples; [now elim Hne|lia]. }
      rewrite Hz. split.
      * intros [c Hc] i j Hi Hj. rewrite Forall_forall in Hc.
        rewrite (Hc (f i)), (Hc (f j)); trivial;
          apply in_map, in_seq; lia.
      * intros Hall. exists (f 0%nat). apply Forall_forall.
        intros x Hx. apply in_map_iff in Hx as (i & <- & Hi).
        apply in_seq in Hi. apply Hall; lia.
    + rewrite Hstd in Hlen. simpl in Hlen. congruence.
Qed.

End BootstrapFacts.

Lemma bootstrap_spread_witness :
  bootstrap nat (fun _ pop k => firstn k pop) [1%nat; 2%nat] false
    (fun resample => Ok (INR (List.length resample))) 3 false
  = Ok (Std (Np2.std (map (fun _ => 2) (seq 0 3)))).
Proof.
  apply (bootstrap_spread nat (fun _ pop k => firstn k pop) [1%nat; 2%nat]
           (fun resample => Ok (INR (List.length resample)))
           (fun _ => 2) 3 false).
  intros j Hj. apply f_equal. simpl. lra.
Defined.

(** ** Final and rescaled times *)

Lemma for_each_Forall {A B : Type} (f : A -> result B) (P : A -> B -> Prop)
    (l : list A) :
  Forall (fun a => exists b, f a = Ok b /\ P a b) l ->
  exists bs, for_each f l = Ok bs /\ Forall2 P l bs.
Proof.
  induction 1 as [|a l (b & Hb & HP) _ (bs & Hbs & Hall)]; simpl.
  - exists []. split; [reflexivity|constructor].
  - rewrite Hb, Hbs. cbn [bind]. exists (b :: bs).
    split; [reflexivity|now constructor].
Qed.

Lemma calc_acc_replica_value (replica : list (list R)) (tcol biascol : nat)
    (beta bias_shift : R) (time bias : list R) :
  replica <> [] ->
  Np.column tcol replica = Ok time ->
  Np.column biascol replica = Ok bias ->
  calc_acc_replica replica tcol biascol beta bias_shift
  = Ok (Np2.trapz_sum (map (fun v => exp (beta * (v + bias_shift))) bias) time
        / last time 0).
Proof.
  intros Hne Ht Hb.
  pose proof (column_length _ _ _ Ht) as Hlt.
  pose proof (column_length _ _ _ Hb) as Hlb.
  destruct (column_last tcol replica time Hne Ht) as (row & Hrow & Hend).
  unfold calc_acc_replica. rewrite Hb, Ht. cbn [bind].
  unfold Np2.trapz. rewrite length_map, Hlb, <- Hlt, Nat.eqb_refl.
  cbn [bind]. rewrite Hrow. cbn [bind]. rewrite Hend. reflexivity.
Qed.

(** X10.  The table [final_times] of [rates] when the acceleration is
    computed from the bias ([columns["acc"]] is [None]), for replicas that
    are not empty and whose rows have the time and bias columns: one row
    per replica; its first entry is the last time of the replica and, when
    that time is not 0, its second entry -- the rescaled time -- is the
    trapezoidal integral of [exp(beta*(bias + bias_shift))] over the times
    of the replica. *)
Theorem final_times_rescaled (data : list (list (list R)))
    (columns_time columns_bias : nat) (beta bias_shift : R) :
  Forall (fun replica =>
            replica <> [] /\
            Forall (fun row => (columns_time < List.length row)%nat /\
                               (columns_bias < List.length row)%nat) replica)
         data ->
  exists rows,
    final_times data columns_time columns_bias None beta bias_shift = Ok rows /\
    Forall2 (fun replica row =>
               exists time bias,
                 Np.column columns_time replica = Ok time /\
                 Np.column columns_bias replica = Ok bias /\
                 fst row = last time 0 /\
                 (last time 0 <> 0 ->
                  snd row = Np2.trapz_sum
                              (map (fun v => exp (beta * (v + bias_shift))) bias)
                              time))
            data rows.
Proof.
  intros Hwf.
  set (cols := fun (replica : list (list R)) (time bias : list R) =>
                 Np.column columns_time replica = Ok time /\
                 Np.column columns_bias replica = Ok bias).
  assert (Hcols : Forall (fun replica =>
                    replica <> [] /\ exists time bias, cols replica time bias)
                    data).
  { eapply Forall_impl; [|exact Hwf]. intros r [Hne Hr]. split; [exact Hne|].
    destruct (column_ok columns_time r) as (time & Ht & _).
    { eapply Forall_impl; [|exact Hr]. simpl. tauto. }
    destruct (column_ok columns_bias r) as (bias & Hb & _).
    { eapply Forall_impl; [|exact Hr]. simpl. tauto. }
    exists time, bias. now split. }
  destruct (for_each_Forall (final_time_row columns_time None)
              (fun replica (r : R * R) =>
                 exists time, Np.column columns_time replica = Ok time /\
                              r = (last time 0, 0)) data)
    as (rows0 & Hrows0 & Hall0).
  { eapply Forall_impl; [|exact Hcols].
    intros r (Hne & time & bias & Ht & Hb).
    destruct (column_last columns_time r time Hne Ht) as (row & Hrow & Hend).
    exists (last time 0, 0). split; [|now exists time].
    unfold final_time_row. rewrite Hrow. cbn [bind]. now rewrite Hend. }
  destruct (for_each_Forall
              (fun replica => calc_acc_replica replica columns_time columns_bias
                                beta bias_shift)
              (fun replica a =>
                 exists time bias, cols replica time bias /\
                   a = Np2.trapz_sum
                         (map (fun v => exp (beta * (v + bias_shift))) bias) time
                       / last time 0) data)
    as (acc & Hacc & Hall1).
  { eapply Forall_impl; [|exact Hcols].
    intros r (Hne & time & bias & Ht & Hb).
    eexists. split; [exact (calc_acc_replica_value r _ _ beta bias_shift time
                              bias Hne Ht Hb)|].
    exists time, bias. split; [now split|reflexivity]. }
  unfold final_times. rewrite Hrows0. cbn [bind].
  unfold calc_acc. rewrite Hacc. cbn [bind].
  assert (Hlen : List.length (map fst rows0) = List.length acc).
  { rewrite length_map, <- (Forall2_length Hall0). exact (Forall2_length Hall1). }
  unfold Np.broadcast. rewrite Hlen, Nat.eqb_refl. cbn [bind].
  eexists. split; [reflexivity|].
  clear - Hall0 Hall1. revert acc Hall1.
  induction Hall0 as [|r row0 data rows0 (time & Ht & ->) _ IH];
    intros acc Hall1; inversion Hall1 as [|? a ? acc' Ha Hall1']; subst.
  - constructor.
  - cbn [map fst Np.zip_with combine]. constructor; [|apply IH; exact Hall1'].
    destruct Ha as (time' & bias & [Ht' Hb] & ->).
    rewrite Ht in Ht'. injection Ht' as <-.
    exists time, bias. split; [exact Ht|]. split; [exact Hb|].
    split; [reflexivity|]. cbn [snd]. intros Hnz. field. exact Hnz.
Qed.

Lemma final_times_rescaled_witness :
  exists rows,
    final_times [[[0; 0]; [2; 0]]] 0 1 None 1 0 = Ok rows /\
    List.length rows = 1%nat.
Proof.
  destruct (final_times_rescaled [[[0; 0]; [2; 0]]] 0 1 1 0) as (rows & Hr & Hall).
  - repeat constructor; discriminate.
  - exists rows. split; [exact Hr|].
    symmetry. exact (Forall2_length Hall).
Defined.

(** ** How far a bracket search goes *)

Lemma bracket_trace_in_range {Fit : Type} (step : R -> R) (in_range : R -> bool)
    (probe : nat -> R -> result (Fit * R)) (x0 : R) (st : ks_state Fit)
    (rs : list (Fit * R)) :
  bracket_trace step in_range probe x0 st rs ->
  (forall x, In x (tried st) -> exists y, in_range y = true /\ x = step y) /\
  (forall i, (S i < List.length (tried st))%nat ->
             in_range (nth i (tried st) 0) = true) /\
  (in_range x0 = false -> tried st = [] /\ good_fit st = None).
Proof.
  intros (Htried & _ & _ & _ & _ & Hrange & Hlast).
  split; [|split].
  - intros x Hx. rewrite Htried in Hx.
    apply in_map_iff in Hx as (i & <- & Hi). apply in_seq in Hi.
    destruct i as [|i]; [lia|].
    exists (iterate step i x0). split; [apply Hrange; lia|reflexivity].
  - intros i Hi. rewrite Htried in *. rewrite length_map, length_seq in Hi.
    rewrite nth_indep with (d' := iterate step 0 x0)
      by (rewrite length_map, length_seq; lia).
    pose proof (map_nth (fun i => iterate step i x0) (seq 1 (List.length rs))
                  0%nat i) as Hnth.
    cbv beta in Hnth. rewrite Hnth, seq_nth by lia.
    apply Hrange. lia.
  - intros Hout. destruct rs as [|r rs].
    + split; [exact Htried|].
      destruct (good_fit st) as [g|]; [|reflexivity].
      destruct Hlast as (l1 & r0 & l2 & Heq & _).
      destruct l1; discriminate.
    + specialize (Hrange 0%nat ltac:(simpl; lia)). simpl in Hrange. congruence.
Qed.

(** X11.  A gamma search leaves the bounds by less than one step: in the
    search for the lower gamma every gamma that is refitted lies above
    [gamma_bounds[0] - 0.02], and every one but the last above
    [gamma_bounds[0]]; in the search for the upper gamma they lie below
    [gamma_bounds[1] + 0.02] and [gamma_bounds[1]].  When the point
    estimate is already at or beyond the bound nothing is refitted and the
    point estimate itself is reported. *)
Theorem gamma_search_overshoot (probe : nat -> R -> result ((R * R) * R))
    (fuel : nat) (cdf_result gamma_bounds : R * R) (rate_conv : R)
    (st : ks_state (R * R)) :
  (gamma_lo_search probe fuel cdf_result gamma_bounds = Some (Ok st) ->
   Forall (fun g => fst gamma_bounds - 0.02 < g) (tried st) /\
   (forall i, (S i < List.length (tried st))%nat ->
              fst gamma_bounds < nth i (tried st) 0) /\
   (snd cdf_result <= fst gamma_bounds ->
    tried st = [] /\
    gamma_KS_report cdf_result rate_conv st
      = (fst cdf_result * rate_conv, snd cdf_result))) /\
  (gamma_hi_search probe fuel cdf_result gamma_bounds = Some (Ok st) ->
   Forall (fun g => g < snd gamma_bounds + 0.02) (tried st) /\
   (forall i, (S i < List.length (tried st))%nat ->
              nth i (tried st) 0 < snd gamma_bounds) /\
   (snd gamma_bounds <= snd cdf_result ->
    tried st = [] /\
    gamma_KS_report cdf_result rate_conv st
      = (fst cdf_result * rate_conv, snd cdf_result))).
Proof.
  split; intros Hrun.
  - destruct (ks_while_trace (R * R) _ _ _ fuel (snd cdf_result) _ st []
                (bracket_trace_init (R * R) _ _ _ _) Hrun) as (rs & Htr & _).
    destruct (bracket_trace_in_range _ _ _ _ _ _ Htr) as (Hin & Hnth & Hnone).
    split; [|split].
    + apply Forall_forall. intros g Hg.
      destruct (Hin g Hg) as (y & Hy & ->).
      destruct (Rlt_dec (fst gamma_bounds) y); [lra|discriminate].
    + intros i Hi. specialize (Hnth i Hi).
      destruct (Rlt_dec (fst gamma_bounds) (nth i (tried st) 0));
        [assumption|discriminate].
    + intros Hle. destruct Hnone as [Ht Hg].
      { destruct (Rlt_dec (fst gamma_bounds) (snd cdf_result));
          [lra|reflexivity]. }
      split; [exact Ht|]. unfold gamma_KS_report. now rewrite Hg.
  - destruct (ks_while_trace (R * R) _ _ _ fuel (snd cdf_result) _ st []
                (bracket_trace_init (R * R) _ _ _ _) Hrun) as (rs & Htr & _).
    destruct (bracket_trace_in_range _ _ _ _ _ _ Htr) as (Hin & Hnth & Hnone).
    split; [|split].
    + apply Forall_forall. intros g Hg.
      destruct (Hin g Hg) as (y & Hy & ->).
      destruct (Rlt_dec y (snd gamma_bounds)); [lra|discriminate].
    + intros i Hi. specialize (Hnth i Hi).
      destruct (Rlt_dec (nth i (tried st) 0) (snd gamma_bounds));
        [assumption|discriminate].
    + intros Hle. destruct Hnone as [Ht Hg].
      { destruct (Rlt_dec (snd cdf_result) (snd gamma_bounds));
          [lra|reflexivity]. }
      split; [exact Ht|]. unfold gamma_KS_report. now rewrite Hg.
Qed.

Lemma gamma_search_overshoot_witness :
  exists fuel st,
    gamma_lo_search (fun _ g => Ok ((1, g), 0)) fuel (1, 0.5) (0, 1)
      = Some (Ok st) /\
    Forall (fun g => 0 - 0.02 < g) (tried st).
Proof.
  destruct (proj2 gamma_lo_search_spec (fun _ g => Ok ((1, g), 0)) (1, 0.5) (0, 1))
    as (fuel & out & Hrun).
  destruct out as [st|e].
  - exists fuel, st. split; [exact Hrun|].
    destruct (gamma_search_overshoot (fun _ g => Ok ((1, g), 0)) fuel (1, 0.5)
                (0, 1) 1 st) as [Hlo _].
    destruct (Hlo Hrun) as [Hall _]. exact Hall.
  - exfalso. revert Hrun. apply ks_while_no_raise. intros n x. eauto.
Defined.

(** ** The gamma scan *)





Section ScanFacts.

Context {scipy : Scipy}.


End ScanFacts.

